(** * Jamments front: a shallow embedding of [src/index.js]

    The library is a small browser client for the Jamments comment API.
    This development embeds its three parts and states the properties of
    the specification over them:

    - the text utilities ([cleanSlug], [escapeHtml], [parseMd]), which are
      chains of [String.prototype.replace] calls with regular expressions;
      they are embedded over a small backtracking matcher that follows the
      ECMAScript matching rules for the constructs the source uses;
    - the request builders ([ajax] and the five mutating operations), with
      the transport's answer taken as an input;
    - the comment tree assembly of [getComments], which mutates shared
      objects through the [commentsHash] index; it is embedded over an
      explicit object store.

    Strings are sequences of Latin-1 code units (the [ascii] type read as
    U+0000 to U+00FF). The embedding comes first, then the sample data,
    the lemmas on each part, and the claims of the specification. *)

From Stdlib Require Import String Ascii List ZArith Lia Bool Arith Permutation Sorted.
From stdpp Require Import gmap list strings sorting.
Import ListNotations.

Local Open Scope list_scope.

(** ** Strings *)

Module JsString.

Definition str := list ascii.

Definition lit (s : string) : str := list_ascii_of_string s.

Definition code (c : ascii) : nat := nat_of_ascii c.

(** [String.prototype.toLowerCase] on Latin-1: A-Z and the accented capitals
    U+00C0..U+00DE (U+00D7, the multiplication sign, apart) move up by 32. *)
Definition lower_char (c : ascii) : ascii :=
  let n := code c in
  if ((65 <=? n) && (n <=? 90)) || ((192 <=? n) && (n <=? 222) && negb (n =? 215))
  then ascii_of_nat (n + 32) else c.

Definition toLowerCase (s : str) : str := List.map lower_char s.

(** WhiteSpace and LineTerminator code points of ECMAScript below U+0100:
    TAB, LF, VT, FF, CR, SP and NBSP. *)
Definition is_space (c : ascii) : bool :=
  let n := code c in
  ((9 <=? n) && (n <=? 13)) || (n =? 32) || (n =? 160).

Fixpoint trimStart (s : str) : str :=
  match s with
  | c :: s' => if is_space c then trimStart s' else s
  | [] => []
  end.

Definition trimEnd (s : str) : str := rev (trimStart (rev s)).

(** [String.prototype.trim] *)
Definition trim (s : str) : str := trimEnd (trimStart s).

End JsString.

(** ** Regular expressions *)

Module Regex.
Import JsString.

(** The constructs that occur in the regular expression literals of the
    source. *)
Inductive regex : Type :=
| Eps
| Chr (c : ascii)                    (* a literal character, escaped or not *)
| Dot                                (* .    any character but a line terminator *)
| AnyChar                            (* [^]  any character *)
| Class (cs : list ascii)            (* [...] *)
| Bol                                (* ^ *)
| Eol                                (* $ *)
| Cat (r1 r2 : regex)
| Alt (r1 r2 : regex)                (* r1|r2 *)
| Star (greedy : bool) (r : regex)   (* r* and r*? *)
| Group (n : nat) (r : regex).       (* the n-th capturing parenthesis *)

(** r+ and r+? *)
Definition Plus (greedy : bool) (r : regex) : regex := Cat r (Star greedy r).
(** r? *)
Definition Opt (r : regex) : regex := Alt r Eps.

Definition captures := list (nat * str).

Fixpoint capture (n : nat) (cs : captures) : str :=
  match cs with
  | [] => []
  | (k, v) :: cs' => if Nat.eqb k n then v else capture n cs'
  end.

Fixpoint groups_of (r : regex) : list nat :=
  match r with
  | Cat a b | Alt a b => groups_of a ++ groups_of b
  | Star _ a => groups_of a
  | Group n a => n :: groups_of a
  | _ => []
  end.

Definition clear (gs : list nat) (cs : captures) : captures :=
  List.filter (fun kv => negb (existsb (Nat.eqb (fst kv)) gs)) cs.

Definition is_line_terminator (c : ascii) : bool :=
  (code c =? 10) || (code c =? 13).

Definition outcome := option (nat * str * captures).
Definition cont := nat -> str -> captures -> outcome.

(** Backtracking matcher in continuation-passing style: [matcher r i s cs k]
    matches [r] at index [i], where [s] is the rest of the input from [i]
    on, then hands the end position to [k]. A failure of [k] makes the
    matcher try its next choice, as the ECMAScript matcher does. An
    iteration of a star that consumes nothing fails, and the captures of
    the starred atom are reset at each iteration (RepeatMatcher). Each
    iteration consumes at least one character, so the number of iterations
    is bounded by the length of the rest. *)
Fixpoint matcher (r : regex) (i : nat) (s : str) (cs : captures) (k : cont)
  {struct r} : outcome :=
  match r with
  | Eps => k i s cs
  | Chr c =>
      match s with
      | x :: s' => if Ascii.eqb x c then k (S i) s' cs else None
      | [] => None
      end
  | Dot =>
      match s with
      | x :: s' => if is_line_terminator x then None else k (S i) s' cs
      | [] => None
      end
  | AnyChar =>
      match s with
      | x :: s' => k (S i) s' cs
      | [] => None
      end
  | Class l =>
      match s with
      | x :: s' => if existsb (Ascii.eqb x) l then k (S i) s' cs else None
      | [] => None
      end
  | Bol => if Nat.eqb i 0 then k i s cs else None
  | Eol => match s with [] => k i s cs | _ :: _ => None end
  | Cat a b => matcher a i s cs (fun i' s' cs' => matcher b i' s' cs' k)
  | Alt a b =>
      match matcher a i s cs k with
      | Some res => Some res
      | None => matcher b i s cs k
      end
  | Star greedy a =>
      (fix loop (n : nat) (i : nat) (s : str) (cs : captures) {struct n} : outcome :=
         let iter :=
           match n with
           | O => None
           | S n' =>
               matcher a i s (clear (groups_of a) cs)
                 (fun i' s' cs' => if Nat.eqb i' i then None else loop n' i' s' cs')
           end in
         if greedy
         then match iter with Some res => Some res | None => k i s cs end
         else match k i s cs with Some res => Some res | None => iter end)
        (S (List.length s)) i s cs
  | Group n a =>
      matcher a i s cs (fun i' s' cs' => k i' s' ((n, firstn (i' - i) s) :: cs'))
  end.

(** One attempt at index [i]: the length of the match and its captures. *)
Definition exec (r : regex) (i : nat) (s : str) : option (nat * captures) :=
  match matcher r i s [] (fun i' s' cs' => Some (i', s', cs')) with
  | Some (i', _, cs') => Some (i' - i, cs')
  | None => None
  end.

(** [String.prototype.replace] with a global regular expression and a
    replacement function [f] of the matched text and the captures. The scan
    goes left to right; the text a match consumed is not scanned again
    ([skip] counts what is left of it), the replacement text is never
    scanned, and after an empty match the scan moves on by one character. *)
Fixpoint replace_from (r : regex) (f : str -> captures -> str)
    (i : nat) (s : str) (skip : nat) {struct s} : str :=
  match skip with
  | S skip' =>
      match s with
      | [] => []
      | _ :: s' => replace_from r f (S i) s' skip'
      end
  | O =>
      match exec r i s with
      | Some (len, cs) =>
          f (firstn len s) cs ++
          match s with
          | [] => []
          | c :: s' =>
              match len with
              | O => c :: replace_from r f (S i) s' O
              | S len' => replace_from r f (S i) s' len'
              end
          end
      | None =>
          match s with
          | [] => []
          | c :: s' => c :: replace_from r f (S i) s' O
          end
      end
  end.

Definition replace_fn (r : regex) (f : str -> captures -> str) (s : str) : str :=
  replace_from r f 0 s 0.

(** Replacement patterns (GetSubstitution), as far as the replacement texts
    of the source use them: [$n] with n from 1 to the number [m] of
    capturing groups stands for a capture, [$$] for a dollar sign and [$&]
    for the matched text; a dollar sign before any other character of
    these texts stands for itself. *)
Definition digit_of (c : ascii) : option nat :=
  let n := code c in
  if (49 <=? n) && (n <=? 57) then Some (n - 48) else None.

Fixpoint substitute (m : nat) (tpl : str) (matched : str) (cs : captures) : str :=
  match tpl with
  | [] => []
  | c :: tpl' =>
      if Ascii.eqb c "$"
      then match tpl' with
           | d :: tpl'' =>
               if Ascii.eqb d "$" then "$"%char :: substitute m tpl'' matched cs
               else if Ascii.eqb d "&" then matched ++ substitute m tpl'' matched cs
               else match digit_of d with
                    | Some n =>
                        if n <=? m then capture n cs ++ substitute m tpl'' matched cs
                        else c :: substitute m tpl' matched cs
                    | None => c :: substitute m tpl' matched cs
                    end
           | [] => [c]
           end
      else c :: substitute m tpl' matched cs
  end.

Definition replace (r : regex) (tpl : str) (s : str) : str :=
  replace_fn r (substitute (List.length (groups_of r)) tpl) s.

(** A literal sequence of characters. *)
Fixpoint Lit (s : str) : regex :=
  match s with
  | [] => Eps
  | [c] => Chr c
  | c :: s' => Cat (Chr c) (Lit s')
  end.

End Regex.

(** ** Text utilities *)

Module Text.
Import JsString Regex.

Definition dquote : ascii := "034"%char.
Definition cr : ascii := "013"%char.
Definition lf : ascii := "010"%char.

(** [/^\/|\/$/g] *)
Definition edge_slash : regex := Alt (Cat Bol (Chr "/")) (Cat (Chr "/") Eol).
(** [/\//g] *)
Definition any_slash : regex := Chr "/".

(** [slug.toLowerCase().replace(/^\/|\/$/g, '').replace(/\//g, '_').trim()] *)
Definition cleanSlug_str (slug : str) : str :=
  trim (replace any_slash (lit "_") (replace edge_slash (lit "") (toLowerCase slug))).

Definition cleanSlug (slug : string) : string :=
  string_of_list_ascii (cleanSlug_str (lit slug)).

(** The [map] object of [escapeHtml]; a key that is absent reads as
    [undefined], which [replace] turns into the text undefined. *)
Definition entity_map : list (str * str) :=
  [ (lit "&", lit "&amp;");
    (lit "<", lit "&lt;");
    (lit ">", lit "&gt;");
    ([dquote], lit "&quot;");
    (lit "'", lit "&#039;") ].

Fixpoint map_get (m : list (str * str)) (key : str) : str :=
  match m with
  | [] => lit "undefined"
  | (k, v) :: m' => if bool_decide (k = key) then v else map_get m' key
  end.

(** The character class of [escapeHtml]: ampersand, less-than, greater-than,
    double quote and single quote. *)
Definition html_special : regex := Class ["&"; "<"; ">"; dquote; "'"]%char.

(** [text.replace(special, m => map[m])], with the global flag *)
Definition escapeHtml_str (text : str) : str :=
  replace_fn html_special (fun m _ => map_get entity_map m) text.

Definition escapeHtml (text : string) : string :=
  string_of_list_ascii (escapeHtml_str (lit text)).

(** The six patterns of [parseMd]. *)
Definition codeblock : regex :=
  Cat (Lit (lit "```"))
    (Cat (Group 1 (Cat (Plus false AnyChar)
                  (Cat (Star false Dot)
                  (Cat (Plus false AnyChar) (Plus false AnyChar)))))
         (Lit (lit "```"))).
Definition code_span : regex :=
  Cat (Chr "`") (Cat (Group 1 (Star false Dot)) (Chr "`")).
Definition link : regex :=
  Cat (Chr "[") (Cat (Group 1 (Star false Dot)) (Cat (Lit (lit "]("))
    (Cat (Group 2 (Star false Dot)) (Chr ")")))).
Definition ital : regex :=
  Cat (Chr "*") (Cat (Group 1 (Star false Dot)) (Chr "*")).
Definition bold : regex :=
  Cat (Lit (lit "**")) (Cat (Group 1 (Star false Dot)) (Lit (lit "**"))).
Definition paragraph : regex :=
  Group 1 (Cat (Plus true Dot)
               (Group 2 (Star true
                  (Group 3 (Cat (Opt (Chr cr)) (Cat (Chr lf) (Plus true Dot))))))).

(** The replacement texts, in the order of the source. *)
Definition codeblock_tpl : str :=
  lit "<pre><code class=" ++ [dquote] ++ lit "hljs" ++ [dquote] ++ lit ">$1</code></pre>".
Definition link_tpl : str :=
  lit "<a href=" ++ [dquote] ++ lit "$2" ++ [dquote] ++ lit ">$1</a>".

Definition parseMd_str (text : str) : str :=
  replace paragraph (lit "<p>$1</p>")
    (replace bold (lit "<strong>$1</strong>")
      (replace ital (lit "<i>$1</i>")
        (replace link link_tpl
          (replace code_span (lit "<code>$1</code>")
            (replace codeblock codeblock_tpl text))))).

Definition parseMd (text : string) : string :=
  string_of_list_ascii (parseMd_str (lit text)).

End Text.


(** The words of the specification for slug normalisation and escaping,
    kept apart from the embedding of the source so that the two can be
    compared. *)
Module TextSpec.
Import JsString Text.

Definition strip_leading_slash (s : str) : str :=
  match s with
  | c :: s' => if Ascii.eqb c "/" then s' else s
  | [] => []
  end.

Definition strip_trailing_slash (s : str) : str :=
  match rev s with
  | c :: r => if Ascii.eqb c "/" then rev r else s
  | [] => []
  end.

Definition slash_to_underscore (c : ascii) : ascii :=
  if Ascii.eqb c "/" then "_"%char else c.

Definition normalize_slug (s : str) : str :=
  trim (List.map slash_to_underscore
          (strip_trailing_slash (strip_leading_slash (toLowerCase s)))).

(** One character of [escapeHtml]: the five special characters become
    their entity, any other character stays. *)
Definition escape_char (c : ascii) : str :=
  if Ascii.eqb c "&" then lit "&amp;"
  else if Ascii.eqb c "<" then lit "&lt;"
  else if Ascii.eqb c ">" then lit "&gt;"
  else if Ascii.eqb c "034" then lit "&quot;"
  else if Ascii.eqb c "'" then lit "&#039;"
  else [c].

Definition escape_each (s : str) : str := List.flat_map escape_char s.

(** What a character of a normalised slug satisfies. *)
Definition slug_char (c : ascii) : Prop :=
  Ascii.eqb c "/" = false /\ lower_char c = c.

Definition is_special (c : ascii) : bool :=
  existsb (Ascii.eqb c) ["&"; "<"; ">"; dquote; "'"]%char.

End TextSpec.

(** ** Requests *)

Module Http.

Inductive method := GET | POST | PATCH | DELETE.

(** What is handed to [fetch]: the URL and the options object. *)
Record request := {
  req_url : string;
  req_method : method;
  req_headers : list (string * string);
  req_body : list (string * string)
}.

(** A rejection value: the text of a response body (a plain string), an
    [Error] built from a status, or what the transport itself threw. *)
Inductive reason :=
| Message (msg : string)
| StatusError (status : Z)
| TransportError (msg : string)
| TypeError (msg : string).

(** A settled promise. *)
Inductive settled (A : Type) :=
| Resolved (v : A)
| Rejected (e : reason).
Arguments Resolved {A} v.
Arguments Rejected {A} e.

(** A response: its status and what its two body readers settle to. *)
Record response (J : Type) := {
  status : Z;
  text : settled string;
  json : settled J
}.
Arguments status {J} r.
Arguments text {J} r.
Arguments json {J} r.

(** [res.ok]: the status is in the range 200-299. *)
Definition ok {J} (res : response J) : bool :=
  (200 <=? status res)%Z && (status res <=? 299)%Z.

(** The transport: [fetch] either answers or rejects. *)
Inductive answer (J : Type) :=
| Responded (res : response J)
| Failed (e : reason).
Arguments Responded {J} res.
Arguments Failed {J} e.

Definition fetch_fn (J : Type) := request -> answer J.

(** Values that reach a form body or a template literal, and their
    conversion to a string. *)
Inductive jsval :=
| Undefined
| Null
| Bool (b : bool)
| Str (s : string).

Definition to_string (v : jsval) : string :=
  match v with
  | Undefined => "undefined"
  | Null => "null"
  | Bool true => "true"
  | Bool false => "false"
  | Str s => s
  end.

(** [fetch(url)] *)
Definition get_request (url : string) : request :=
  {| req_url := url; req_method := GET; req_headers := []; req_body := [] |}.

(** [getJsonData] *)
Definition getJsonData {J} (fetch : fetch_fn J) (url : string) : settled J :=
  match fetch (get_request url) with
  | Responded res =>
      if negb (ok res) then Rejected (StatusError (status res)) else json res
  | Failed e => Rejected e
  end.

(** The request of [ajax]: every key of [body] is appended to the form. *)
Definition form_request (url : string) (m : method) (body : list (string * jsval))
  : request :=
  {| req_url := url;
     req_method := m;
     req_headers := [("Content-Type", "application/x-www-form-urlencoded")];
     req_body := List.map (fun kv => (fst kv, to_string (snd kv))) body |}.

(** [ajax] *)
Definition ajax {J} (fetch : fetch_fn J) (url : string) (m : method)
    (body : list (string * jsval)) : settled unit :=
  match fetch (form_request url m body) with
  | Responded res =>
      if negb (ok res)
      then match text res with
           | Resolved msg => Rejected (Message msg)
           | Rejected e => Rejected e
           end
      else Resolved tt
  | Failed e => Rejected e
  end.

End Http.

(** ** The client *)

Module Client.
Import Http.
Local Open Scope string_scope.

Abbreviation loc := nat (only parsing).

(** A comment record as the cache file serves it. [submitted_at] is the time
    value of [new Date(submitted_at)], a valid date; identifiers are
    numbers. *)
Record comment := {
  id : Z;
  parent_id : option Z;
  submitted_at : Z;
  name : string;
  comment_text : string
}.

(** A comment object of the store: the record and the [children] array that
    [getComments] assigns to it. *)
Record object := {
  fields : comment;
  children : list loc
}.

Abbreviation heap := (list object) (only parsing).

Record Jamments := {
  endpoint : string;
  cachedFilesURI : string;
  commentsHash : gmap Z loc
}.

Record config := {
  cfg_endpoint : option string;
  cfg_cachedFilesURI : option string
}.

Definition truthy (s : option string) : bool :=
  match s with
  | Some s => negb (String.eqb s "")
  | None => false
  end.

(** [constructor] *)
Definition constructor (cfg : option config) : reason + Jamments :=
  match cfg with
  | Some c =>
      match cfg_endpoint c, cfg_cachedFilesURI c with
      | Some e, Some u =>
          if truthy (Some e) && truthy (Some u)
          then inr {| endpoint := e; cachedFilesURI := u; commentsHash := ∅ |}
          else inl (TypeError "Both endpoint and cachedFilesURI must be defined")
      | _, _ => inl (TypeError "Both endpoint and cachedFilesURI must be defined")
      end
  | None => inl (TypeError "Both endpoint and cachedFilesURI must be defined")
  end.

(** The five mutating operations with their arguments. *)
Inductive mutation :=
| PostComment (slug comment name email : string) (parentId : jsval)
| UpdateComment (commentId secret comment : string)
| DeleteComment (commentId secret : string)
| ValidateComment (commentId secret : string)
| UpdateNewCommentsSubscription (articleId userId secret : string) (subscribe : bool).

Section Operations.
Context {J : Type} (fetch : fetch_fn J) (this : Jamments).

Definition getSiteInfos : settled J :=
  getJsonData fetch (endpoint this ++ "/" ++ cachedFilesURI this ++ "/site.json").

Definition comments_url (slug : string) : string :=
  endpoint this ++ "/" ++ cachedFilesURI this ++ "/" ++ Text.cleanSlug slug ++ ".json".

Definition postComment slug comment name email parentId : settled unit :=
  ajax fetch (endpoint this ++ "/comment/") POST
    [("slug", Str slug); ("comment", Str comment); ("name", Str name);
     ("email", Str email); ("parent_id", parentId)].

Definition updateComment commentId secret comment : settled unit :=
  ajax fetch (endpoint this ++ "/comment/" ++ commentId) PATCH
    [("comment", Str comment); ("user_secret", Str secret)].

Definition deleteComment commentId secret : settled unit :=
  ajax fetch (endpoint this ++ "/comment/" ++ commentId) DELETE
    [("user_secret", Str secret)].

Definition validateComment commentId secret : settled unit :=
  ajax fetch (endpoint this ++ "/comment/validate/" ++ commentId ++ "/") POST
    [("user_secret", Str secret)].

Definition updateNewCommentsSubscription articleId userId secret subscribe
  : settled unit :=
  ajax fetch (endpoint this ++ "/notification/article/" ++ articleId ++ "/") PATCH
    [("subscribe", Bool subscribe); ("user_id", Str userId);
     ("user_secret", Str secret)].

Definition perform (op : mutation) : settled unit :=
  match op with
  | PostComment slug comment name email parentId =>
      postComment slug comment name email parentId
  | UpdateComment commentId secret comment => updateComment commentId secret comment
  | DeleteComment commentId secret => deleteComment commentId secret
  | ValidateComment commentId secret => validateComment commentId secret
  | UpdateNewCommentsSubscription articleId userId secret subscribe =>
      updateNewCommentsSubscription articleId userId secret subscribe
  end.

(** The request an operation hands to [fetch]. *)
Definition request_of (op : mutation) : request :=
  match op with
  | PostComment slug comment name email parentId =>
      form_request (endpoint this ++ "/comment/") POST
        [("slug", Str slug); ("comment", Str comment); ("name", Str name);
         ("email", Str email); ("parent_id", parentId)]
  | UpdateComment commentId secret comment =>
      form_request (endpoint this ++ "/comment/" ++ commentId) PATCH
        [("comment", Str comment); ("user_secret", Str secret)]
  | DeleteComment commentId secret =>
      form_request (endpoint this ++ "/comment/" ++ commentId) DELETE
        [("user_secret", Str secret)]
  | ValidateComment commentId secret =>
      form_request (endpoint this ++ "/comment/validate/" ++ commentId ++ "/") POST
        [("user_secret", Str secret)]
  | UpdateNewCommentsSubscription articleId userId secret subscribe =>
      form_request (endpoint this ++ "/notification/article/" ++ articleId ++ "/") PATCH
        [("subscribe", Bool subscribe); ("user_id", Str userId);
         ("user_secret", Str secret)]
  end.

End Operations.

End Client.

(** ** Sorting *)

Module JsArray.

(** [Array.prototype.sort] leaves the order to the implementation when
    [comparefn] is not a consistent comparator, and the comparator of
    [getComments] is not one: it never answers 0. Engines insert each
    element into the sorted part before it (short arrays) and merge sorted
    runs by the same test (long arrays); they differ in the question they
    put to [comparefn]. [LessThanZero] engines move the item in front of a
    sorted element when [comparefn(item, element) < 0] (binary insertion
    and galloping merges of this kind never look at a positive answer);
    [AtMostZero] engines leave the item behind a sorted element when
    [comparefn(element, item) <= 0] and move it in front otherwise. For a
    comparator that answers by a total preorder with 0 on ties the two
    agree. *)
Inductive engine := LessThanZero | AtMostZero.

Section Sort.
Context {A : Type} (e : engine) (comparefn : A -> A -> Z).

Definition moves_before (item element : A) : bool :=
  match e with
  | LessThanZero => (comparefn item element <? 0)%Z
  | AtMostZero => negb (comparefn element item <=? 0)%Z
  end.

(** Insertion of [item] into the sorted part, which is given from its last
    element to its first. *)
Fixpoint insert_back (item : A) (sorted_rev : list A) : list A :=
  match sorted_rev with
  | [] => [item]
  | element :: rest =>
      if moves_before item element
      then element :: insert_back item rest
      else item :: sorted_rev
  end.

Definition sort (arr : list A) : list A :=
  rev (fold_left (fun sorted_rev item => insert_back item sorted_rev) arr []).

End Sort.

(** The comparator of [getComments] over a date function. *)
Definition by_date (d : nat -> Z) (a b : nat) : Z :=
  if (d a <? d b)%Z then (-1)%Z else 1%Z.

(** The order the sort produces: by date, and among equal dates by input
    position, forwards or backwards according to the engine. *)
Definition tie (e : engine) (a b : nat) : Prop :=
  match e with
  | LessThanZero => a < b
  | AtMostZero => b < a
  end.

Definition before (e : engine) (d : nat -> Z) (a b : nat) : Prop :=
  (d a < d b)%Z \/ (d a = d b /\ tie e a b).

End JsArray.

(** ** Comment tree assembly *)

Module Tree.
Import Http Client JsArray.

(** The store and the client's index. *)
Record state := {
  st_heap : heap;
  st_hash : gmap Z loc
}.

(** Reading a property of the object at [l]. Every location the assembly
    reads is one it was given by the allocation of the parsed array or by
    the index, so the default values are never read. *)
Definition submitted_at_of (h : heap) (l : loc) : Z :=
  match h !! l with
  | Some o => submitted_at (fields o)
  | None => 0
  end.

Definition id_of (h : heap) (l : loc) : Z :=
  match h !! l with
  | Some o => id (fields o)
  | None => 0
  end.

(** [comment.parent_id] when it is truthy: [null] and 0 are not. *)
Definition truthy_parent (c : comment) : option Z :=
  match parent_id c with
  | Some p => if (p =? 0)%Z then None else Some p
  | None => None
  end.

Definition parent_of (h : heap) (l : loc) : option Z :=
  match h !! l with
  | Some o => truthy_parent (fields o)
  | None => None
  end.

Definition children_of (h : heap) (l : loc) : list loc :=
  match h !! l with
  | Some o => children o
  | None => []
  end.

(** The comparator handed to [sort]. *)
Definition compare (h : heap) (a b : loc) : Z :=
  if (submitted_at_of h a <? submitted_at_of h b)%Z then (-1)%Z else 1%Z.

(** [res.json()] builds fresh objects, one per record, in the order of the
    array. *)
Definition parse (h : heap) (cs : list comment) : heap * list loc :=
  (h ++ List.map (fun c => {| fields := c; children := [] |}) cs,
   seq (List.length h) (List.length cs)).

(** [this.commentsHash[comment.id] = Object.assign(comment, { children: [] })] *)
Definition assign_children (l : loc) (h : heap) : heap :=
  alter (fun o => {| fields := fields o; children := [] |}) l h.

Definition index_step (st : state) (l : loc) : state :=
  {| st_heap := assign_children l (st_heap st);
     st_hash := <[ id_of (st_heap st) l := l ]> (st_hash st) |}.

Definition create_hash (arr : list loc) (st : state) : state :=
  fold_left index_step arr st.

(** [this.commentsHash[comment.parent_id].children.push(comment)] *)
Definition push_child (p l : loc) (h : heap) : heap :=
  alter (fun o => {| fields := fields o; children := children o ++ [l] |}) p h.

(** The second [forEach]: reading [children] of an entry the index does not
    have throws, and the pushes made until then stay. *)
Fixpoint move_children (hash : gmap Z loc) (arr : list loc) (h : heap)
  : heap * option reason :=
  match arr with
  | [] => (h, None)
  | l :: arr' =>
      match parent_of h l with
      | None => move_children hash arr' h
      | Some pid =>
          match hash !! pid with
          | Some p => move_children hash arr' (push_child p l h)
          | None => (h, Some (TypeError "Cannot read properties of undefined"))
          end
      end
  end.

(** The [reduce] that keeps the comments without a parent. *)
Definition roots (h : heap) (arr : list loc) : list loc :=
  fold_left (fun acc curr =>
               match parent_of h curr with
               | None => acc ++ [curr]
               | Some _ => acc
               end) arr [].

(** The callback of [getComments] on the parsed array. *)
Definition assemble (e : engine) (cs : list comment) (st : state)
  : state * settled (list loc) :=
  let '(h0, arr0) := parse (st_heap st) cs in
  let arr := sort e (compare h0) arr0 in
  let st1 := create_hash arr {| st_heap := h0; st_hash := st_hash st |} in
  match move_children (st_hash st1) arr (st_heap st1) with
  | (h2, None) =>
      ({| st_heap := h2; st_hash := st_hash st1 |}, Resolved (roots h2 arr))
  | (h2, Some err) =>
      ({| st_heap := h2; st_hash := st_hash st1 |}, Rejected err)
  end.

(** [getComments]: the index is the client's [commentsHash] field; the
    store is shared by all the objects the page holds. *)
Definition getComments (e : engine) (fetch : fetch_fn (list comment))
    (slug : string) (h : heap) (this : Jamments)
  : heap * Jamments * settled (list loc) :=
  match getJsonData fetch (comments_url this slug) with
  | Resolved cs =>
      let '(st, res) := assemble e cs {| st_heap := h; st_hash := commentsHash this |} in
      (st_heap st,
       {| endpoint := endpoint this;
          cachedFilesURI := cachedFilesURI this;
          commentsHash := st_hash st |},
       res)
  | Rejected err => (h, this, Rejected err)
  end.

(** [getCommentById] *)
Definition getCommentById (this : Jamments) (k : Z) : option loc :=
  commentsHash this !! k.

(** *** Vocabulary of the properties *)

(** Two stores hold the same records at the same locations. *)
Definition same_fields (h h' : heap) : Prop :=
  forall l, fields <$> (h' !! l) = fields <$> (h !! l).

(** The index once every element of [arr] is written under its identifier. *)
Definition index_all (idf : loc -> Z) (arr : list loc) (m : gmap Z loc) : gmap Z loc :=
  fold_left (fun m l => <[ idf l := l ]> m) arr m.

(** The object a comment is pushed into: the index entry of its parent. *)
Definition target (h : heap) (hash : gmap Z loc) (l : loc) : option loc :=
  match parent_of h l with
  | Some pid => hash !! pid
  | None => None
  end.

Definition pushed_into (h : heap) (hash : gmap Z loc) (x l : loc) : bool :=
  bool_decide (target h hash l = Some x).

Definition is_root (h : heap) (l : loc) : bool :=
  match parent_of h l with None => true | Some _ => false end.

(** Every parent reference that is not [null] names a comment of the same
    array. *)
Definition parents_resolve (cs : list comment) : Prop :=
  forall c p, List.In c cs -> parent_id c = Some p ->
              exists c', List.In c' cs /\ id c' = p.

Definition fresh (c : comment) : object := {| fields := c; children := [] |}.

(** The store once the array is parsed, the locations of its objects in
    input order, the array once sorted, and the index once filled. *)
Definition loaded (h : heap) (cs : list comment) : heap := h ++ List.map fresh cs.
Definition fetched (h : heap) (cs : list comment) : list loc :=
  seq (List.length h) (List.length cs).
Definition sorted (e : engine) (h : heap) (cs : list comment) : list loc :=
  sort e (by_date (submitted_at_of (loaded h cs))) (fetched h cs).
Definition indexed (e : engine) (h : heap) (cs : list comment) (hash : gmap Z loc)
  : gmap Z loc :=
  index_all (id_of (loaded h cs)) (sorted e h cs) hash.

(** Siblings of a list follow each other by date, and among equal dates in
    input order. *)
Definition stable_order (h : heap) (siblings : list loc) : Prop :=
  StronglySorted (before LessThanZero (submitted_at_of h)) siblings.

(** Siblings of a list follow each other by date. *)
Definition chronological (h : heap) (siblings : list loc) : Prop :=
  StronglySorted (fun a b => (submitted_at_of h a <= submitted_at_of h b)%Z) siblings.

Definition occurrences (l : loc) (siblings : list loc) : nat :=
  count_occ Nat.eq_dec siblings l.

(** A comment can be reached from the forest: it is a root, or a child of a
    comment that can be reached. *)
Inductive reachable (h : heap) (forest : list loc) : loc -> Prop :=
| reach_root l : List.In l forest -> reachable h forest l
| reach_child p l :
    reachable h forest p -> List.In l (children_of h p) -> reachable h forest l.

(** The chain of parents of a comment, followed through the index, ends at
    a comment without a parent. *)
Inductive grounded (h : heap) (hash : gmap Z loc) : loc -> Prop :=
| ground_root l : parent_of h l = None -> grounded h hash l
| ground_reply l pid p :
    parent_of h l = Some pid -> hash !! pid = Some p ->
    grounded h hash p -> grounded h hash l.

End Tree.

(** ** Vocabulary of the further properties of the text utilities *)

Module TextProps.
Import JsString Regex Text TextSpec.

(** The four characters that open or close markup or an attribute value. *)
Definition is_markup (c : ascii) : bool :=
  existsb (Ascii.eqb c) ["<"; ">"; dquote; "'"]%char.

(** [s] begins with [p]. *)
Fixpoint starts_with (p s : str) : bool :=
  match p, s with
  | [], _ => true
  | a :: p', b :: s' => Ascii.eqb a b && starts_with p' s'
  | _ :: _, [] => false
  end.

(** Reading the five entities back, left to right; [skip] counts the
    characters of an entity name still to pass over. *)
Fixpoint unescape_from (s : str) (skip : nat) : str :=
  match s with
  | [] => []
  | c :: s' =>
      match skip with
      | S k => unescape_from s' k
      | O =>
          if Ascii.eqb c "&" then
            if starts_with (lit "amp;") s' then "&"%char :: unescape_from s' 4
            else if starts_with (lit "lt;") s' then "<"%char :: unescape_from s' 3
            else if starts_with (lit "gt;") s' then ">"%char :: unescape_from s' 3
            else if starts_with (lit "quot;") s' then dquote :: unescape_from s' 5
            else if starts_with (lit "#039;") s' then "'"%char :: unescape_from s' 5
            else c :: unescape_from s' 0
          else c :: unescape_from s' 0
      end
  end.

Definition unescape (s : str) : str := unescape_from s 0.

(** The loop of a starred atom, as [matcher] runs it. *)
Definition star_loop (greedy : bool) (a : regex) (k : cont) :=
  fix loop (n : nat) (i : nat) (s : str) (cs : captures) {struct n} : outcome :=
    let iter :=
      match n with
      | O => None
      | S n' =>
          matcher a i s (clear (groups_of a) cs)
            (fun i' s' cs' => if Nat.eqb i' i then None else loop n' i' s' cs')
      end in
    if greedy
    then match iter with Some res => Some res | None => k i s cs end
    else match k i s cs with Some res => Some res | None => iter end.

(** What a lazy run of dots comes to: the continuation is tried first, then one more
    character of the line is taken. *)
Fixpoint lazy_dots (k : cont) (i : nat) (s : str) (cs : captures) : outcome :=
  match k i s cs with
  | Some r => Some r
  | None =>
      match s with
      | x :: s' => if is_line_terminator x then None else lazy_dots k (S i) s' cs
      | [] => None
      end
  end.

(** Two asterisks stand side by side somewhere in [s]. *)
Fixpoint star_pair (s : str) : bool :=
  match s with
  | c :: s' =>
      (Ascii.eqb c "*" && match s' with d :: _ => Ascii.eqb d "*" | [] => false end)
      || star_pair s'
  | [] => false
  end.

(** The distance to the asterisk that closes an italic span opened just
    before [s]: the first asterisk of the line. *)
Fixpoint close (s : str) : option nat :=
  match s with
  | [] => None
  | x :: t =>
      if Ascii.eqb x "*" then Some 0
      else if is_line_terminator x then None
      else option_map S (close t)
  end.

Definition ital_tpl : str := lit "<i>$1</i>".

(** The continuation of the italic pattern after its lazy group: the
    closing asterisk. *)
Definition closing_star (b : nat) (s1 : str) : cont :=
  fun i' s'' cs' =>
    match s'' with
    | x :: t =>
        if Ascii.eqb x "*"
        then Some (S i', t, (1, firstn (i' - b) s1) :: cs')
        else None
    | [] => None
    end.

Definition no_star (c : ascii) : bool := negb (Ascii.eqb c "*").

(** The literal character a pattern has to begin with, when it has one. *)
Fixpoint first_char (r : regex) : option ascii :=
  match r with
  | Chr c => Some c
  | Cat a _ => first_char a
  | Group _ a => first_char a
  | _ => None
  end.

(** What a greedy run of dots comes to: the rest of the line is taken
    first, then the continuation is tried, giving back one character at a
    time. *)
Fixpoint greedy_dots (k : cont) (i : nat) (s : str) (cs : captures) : outcome :=
  match s with
  | x :: s' =>
      if is_line_terminator x then k i s cs
      else match greedy_dots k (S i) s' cs with
           | Some r => Some r
           | None => k i s cs
           end
  | [] => k i s cs
  end.

Definition on_line (c : ascii) : bool := negb (is_line_terminator c).

(** A character that opens none of the inline constructs: no backtick, no
    opening bracket, no asterisk. *)
Definition inline_free (c : ascii) : bool :=
  negb (Ascii.eqb c "`") && negb (Ascii.eqb c "[") && negb (Ascii.eqb c "*").

(** [s] neither begins nor ends with a slash. *)
Definition no_edge_slash (s : str) : bool :=
  match s with c :: _ => negb (Ascii.eqb c "/") | [] => true end &&
  match rev s with c :: _ => negb (Ascii.eqb c "/") | [] => true end.

(** A character of a plain line: it opens no inline construct and ends no
    line. *)
Definition plain (c : ascii) : bool := inline_free c && on_line c.

End TextProps.

(** ** Vocabulary of the further properties of the tree *)

Module TreeProps.
Import Http.

(** The error of reading [children] of an index entry that is not there. *)
Definition dangling : reason := TypeError "Cannot read properties of undefined".

End TreeProps.

(** ** Sample data *)

Module Samples.
Import Text Http Client JsArray Tree.
Local Open Scope string_scope.
Local Open Scope Z_scope.

(** The sample text of the escaping scenario: a bold tag around a quoted x. *)
Definition quoted_sample : string :=
  "<b>" ++ String dquote "x" ++ String dquote "</b>".

(** A transport that answers every request with the same response. *)
Definition always {J : Type} (res : response J) : fetch_fn J :=
  fun _ => Responded res.

Definition sample_client : Jamments :=
  {| endpoint := "https://api.example.com";
     cachedFilesURI := "static";
     commentsHash := ∅ |}.

Definition forbidden : response unit :=
  {| status := 403; text := Resolved "bad secret"; json := Resolved tt |}.

(** A transport that serves one URL and fails on every other request. *)
Definition serve_only (url : string) (cs : list comment) : fetch_fn (list comment) :=
  fun req =>
    if String.eqb (req_url req) url
    then Responded {| status := 200; text := Resolved ""; json := Resolved cs |}
    else Failed (TransportError "Failed to fetch").

Definition record (i : Z) (p : option Z) (t : Z) : comment :=
  {| id := i; parent_id := p; submitted_at := t; name := ""; comment_text := "" |}.

Definition no_state : state := {| st_heap := []; st_hash := ∅ |}.

Definition sample_thread : list comment :=
  [record 1 None 30; record 2 (Some 1) 20; record 3 (Some 1) 20; record 4 None 10].

Definition first_page : list comment := [record 1 None 10].
Definition second_page : list comment := [record 2 None 20].

End Samples.

(** ** Sample data of the further properties *)

Module MoreSamples.
Import Http Client JsArray Tree Samples.
Local Open Scope string_scope.
Local Open Scope Z_scope.

(** The store and the client after a first call that fetched comment 1. *)
Definition earlier_heap : list object :=
  [{| fields := record 1 None 10; children := [] |}].

Definition returning_client : Jamments :=
  {| endpoint := "https://api.example.com";
     cachedFilesURI := "static";
     commentsHash := <[ 1 := 0%nat ]> ∅ |}.

(** A page whose only comment answers comment 1. *)
Definition reply_page : list comment := [record 2 (Some 1) 20].

(** A thread with pairwise different identifiers and timestamps. *)
Definition dated_thread : list comment :=
  [record 1 None 30; record 2 (Some 1) 40; record 3 None 10].

Definition post_url : string := "https://api.example.com/static/post.json".

(** Two comments under one identifier. *)
Definition twice_one : list comment := [record 1 None 20; record 1 None 10].

End MoreSamples.

(** ** Properties of the text utilities *)

Section TextFacts.
Import JsString Regex Text TextSpec.

Lemma lit_string_of_list (s : str) : lit (string_of_list_ascii s) = s.
Proof. apply list_ascii_of_string_of_list_ascii. Qed.

Lemma string_of_list_inj (a b : str) :
  string_of_list_ascii a = string_of_list_ascii b -> a = b.
Proof.
  intros H. rewrite <- (lit_string_of_list a), <- (lit_string_of_list b).
  now rewrite H.
Qed.

Lemma replace_from_nil r f i :
  replace_from r f i [] 0 =
  match exec r i [] with Some (len, cs) => f (firstn len []) cs ++ [] | None => [] end.
Proof. reflexivity. Qed.

Lemma replace_from_cons r f i c s :
  replace_from r f i (c :: s) 0 =
  match exec r i (c :: s) with
  | Some (len, cs) =>
      f (firstn len (c :: s)) cs ++
      match len with
      | O => c :: replace_from r f (S i) s 0
      | S len' => replace_from r f (S i) s len'
      end
  | None => c :: replace_from r f (S i) s 0
  end.
Proof. reflexivity. Qed.

(** *** The two slash patterns *)

Lemma exec_any_slash i c s :
  exec any_slash i (c :: s) = if Ascii.eqb c "/" then Some (1, []) else None.
Proof.
  unfold exec, any_slash. cbn [matcher].
  destruct (Ascii.eqb c "/"); [|reflexivity].
  f_equal. f_equal. lia.
Qed.

Lemma replace_any_slash s :
  replace any_slash (lit "_") s = List.map slash_to_underscore s.
Proof.
  unfold replace, replace_fn. generalize 0 at 1.
  induction s as [|c s IH]; intros i; [reflexivity|].
  rewrite replace_from_cons, exec_any_slash.
  unfold slash_to_underscore at 1. cbn [List.map].
  destruct (Ascii.eqb c "/"); cbn; now rewrite IH.
Qed.

Lemma exec_edge_slash i c s :
  exec edge_slash i (c :: s) =
  if Ascii.eqb c "/" && (Nat.eqb i 0 || match s with [] => true | _ => false end)
  then Some (1, []) else None.
Proof.
  unfold exec, edge_slash. cbn [matcher].
  assert (E : S i - i = 1) by lia.
  destruct (Nat.eqb i 0), (Ascii.eqb c "/"), s; cbn; rewrite ?E; reflexivity.
Qed.

Lemma strip_trailing_slash_cons c d s :
  strip_trailing_slash (c :: d :: s) = c :: strip_trailing_slash (d :: s).
Proof.
  unfold strip_trailing_slash.
  change (rev (c :: d :: s)) with (rev (d :: s) ++ [c]).
  destruct (rev (d :: s)) as [|x r] eqn:E.
  - apply (f_equal (@List.length _)) in E. rewrite length_rev in E. discriminate.
  - cbn. destruct (Ascii.eqb x "/"); [|reflexivity].
    now rewrite rev_app_distr.
Qed.

Lemma replace_edge_slash_inner i s :
  replace_from edge_slash (substitute 0 (lit "")) (S i) s 0 = strip_trailing_slash s.
Proof.
  revert i. induction s as [|c s IH]; intros i; [reflexivity|].
  rewrite replace_from_cons, exec_edge_slash. cbn [Nat.eqb orb].
  destruct s as [|d s].
  - unfold strip_trailing_slash. cbn. destruct (Ascii.eqb c "/"); reflexivity.
  - rewrite andb_false_r, IH. now rewrite strip_trailing_slash_cons.
Qed.

Lemma replace_edge_slash s :
  replace edge_slash (lit "") s = strip_trailing_slash (strip_leading_slash s).
Proof.
  unfold replace, replace_fn. change (List.length (groups_of edge_slash)) with 0.
  destruct s as [|c s]; [reflexivity|].
  rewrite replace_from_cons, exec_edge_slash. cbn [Nat.eqb orb].
  rewrite andb_true_r. unfold strip_leading_slash.
  destruct (Ascii.eqb c "/") eqn:E.
  - cbn. destruct s as [|d s]; [reflexivity|]. apply replace_edge_slash_inner.
  - rewrite replace_edge_slash_inner. destruct s as [|d s].
    + unfold strip_trailing_slash. cbn. now rewrite E.
    + now rewrite strip_trailing_slash_cons.
Qed.

Lemma cleanSlug_str_spec s : cleanSlug_str s = normalize_slug s.
Proof.
  unfold cleanSlug_str, normalize_slug.
  now rewrite replace_edge_slash, replace_any_slash.
Qed.

(** *** Trimming and lower-casing *)

Lemma trimStart_idem s : trimStart (trimStart s) = trimStart s.
Proof.
  induction s as [|c s IH]; [reflexivity|].
  cbn. destruct (is_space c) eqn:E; [exact IH|]. cbn. now rewrite E.
Qed.

Lemma trimStart_app_keep l c :
  is_space c = false -> trimStart (l ++ [c]) = trimStart l ++ [c].
Proof.
  intros Hc. induction l as [|x l IH]; cbn.
  - now rewrite Hc.
  - destruct (is_space x); [exact IH|reflexivity].
Qed.

Lemma trimEnd_cons_keep c s :
  is_space c = false -> trimEnd (c :: s) = c :: trimEnd s.
Proof.
  intros Hc. unfold trimEnd. cbn [rev].
  rewrite trimStart_app_keep by exact Hc.
  rewrite rev_app_distr. reflexivity.
Qed.

Lemma trimEnd_idem s : trimEnd (trimEnd s) = trimEnd s.
Proof. unfold trimEnd. now rewrite rev_involutive, trimStart_idem. Qed.

Lemma trimStart_trimEnd_trimStart s :
  trimStart (trimEnd (trimStart s)) = trimEnd (trimStart s).
Proof.
  induction s as [|c s IH]; [reflexivity|].
  cbn [trimStart]. destruct (is_space c) eqn:E; [exact IH|].
  rewrite trimEnd_cons_keep by exact E. cbn. now rewrite E.
Qed.

Lemma trim_idem s : trim (trim s) = trim s.
Proof.
  unfold trim. now rewrite trimStart_trimEnd_trimStart, trimEnd_idem.
Qed.

Lemma Forall_trimStart (P : ascii -> Prop) s :
  List.Forall P s -> List.Forall P (trimStart s).
Proof.
  induction 1 as [|c s Hc Hs IH]; cbn; [constructor|].
  destruct (is_space c); [exact IH|now constructor].
Qed.

Lemma Forall_trim (P : ascii -> Prop) s :
  List.Forall P s -> List.Forall P (trim s).
Proof.
  intros H. unfold trim, trimEnd.
  apply Forall_rev, Forall_trimStart, Forall_rev, Forall_trimStart, H.
Qed.

Lemma lower_char_idem c : lower_char (lower_char c) = lower_char c.
Proof. destruct c as [[] [] [] [] [] [] [] []]; reflexivity. Qed.

Lemma slug_char_underscore c :
  lower_char c = c -> slug_char (slash_to_underscore c).
Proof.
  intros H. unfold slug_char, slash_to_underscore.
  destruct (Ascii.eqb c "/") eqn:E; [split; reflexivity|now split].
Qed.

Lemma Forall_strip_leading (P : ascii -> Prop) s :
  List.Forall P s -> List.Forall P (strip_leading_slash s).
Proof.
  intros H. destruct H as [|c s Hc Hs]; cbn; [constructor|].
  destruct (Ascii.eqb c "/"); [exact Hs|now constructor].
Qed.

Lemma Forall_strip_trailing (P : ascii -> Prop) s :
  List.Forall P s -> List.Forall P (strip_trailing_slash s).
Proof.
  intros H. unfold strip_trailing_slash.
  destruct (rev s) as [|c r] eqn:E; [constructor|].
  destruct (Ascii.eqb c "/"); [|exact H].
  apply Forall_rev. apply Forall_rev in H. rewrite E in H.
  now inversion H.
Qed.

Lemma normalize_slug_chars s : List.Forall slug_char (normalize_slug s).
Proof.
  unfold normalize_slug. apply Forall_trim.
  rewrite List.Forall_map.
  apply (List.Forall_impl _ slug_char_underscore).
  apply Forall_strip_trailing, Forall_strip_leading.
  unfold toLowerCase. rewrite List.Forall_map.
  apply List.Forall_forall. intros c _. apply lower_char_idem.
Qed.

Lemma slug_chars_fixed s :
  List.Forall slug_char s -> trim s = s -> normalize_slug s = s.
Proof.
  intros H Ht. unfold normalize_slug.
  assert (Hl : toLowerCase s = s).
  { clear Ht. unfold toLowerCase.
    induction H as [|c s [_ Hc] Hs IH]; cbn [List.map]; [reflexivity|].
    now rewrite Hc, IH. }
  assert (Hh : strip_leading_slash s = s).
  { destruct H as [|c s [Hc _] Hs]; cbn; [reflexivity|]. now rewrite Hc. }
  assert (Hr : strip_trailing_slash s = s).
  { unfold strip_trailing_slash. apply Forall_rev in H.
    destruct (rev s) as [|c r] eqn:E.
    - apply (f_equal (@rev _)) in E. now rewrite rev_involutive in E.
    - inversion H as [|? ? [Hc _] ?]; subst. now rewrite Hc. }
  assert (Hu : List.map slash_to_underscore s = s).
  { clear Ht Hl Hh Hr.
    induction H as [|c s [Hc _] Hs IH]; cbn [List.map]; [reflexivity|].
    unfold slash_to_underscore at 1. now rewrite Hc, IH. }
  now rewrite Hl, Hh, Hr, Hu.
Qed.

(** *** Escaping *)

Lemma exec_html_special i c s :
  exec html_special i (c :: s) = if is_special c then Some (1, []) else None.
Proof.
  unfold exec, html_special, is_special. cbn [matcher].
  match goal with |- context [existsb ?f ?l] => destruct (existsb f l) end;
    [|reflexivity].
  f_equal. f_equal. lia.
Qed.

Lemma entity_of_char c :
  (if is_special c then map_get entity_map [c] else [c]) = escape_char c.
Proof. destruct c as [[] [] [] [] [] [] [] []]; reflexivity. Qed.

Lemma escapeHtml_str_spec s : escapeHtml_str s = escape_each s.
Proof.
  unfold escapeHtml_str, replace_fn, escape_each. generalize 0 at 1.
  induction s as [|c s IH]; intros i; [reflexivity|].
  rewrite replace_from_cons, exec_html_special. cbn [List.flat_map].
  rewrite <- entity_of_char.
  destruct (is_special c); cbn [firstn]; now rewrite IH.
Qed.

Lemma escape_char_length c : 1 <= List.length (escape_char c).
Proof. apply Nat.leb_le. destruct c as [[] [] [] [] [] [] [] []]; reflexivity. Qed.

Lemma escape_each_length s : List.length s <= List.length (escape_each s).
Proof.
  induction s as [|c s IH]; [reflexivity|].
  unfold escape_each in *. cbn [List.flat_map List.length].
  rewrite length_app. pose proof (escape_char_length c). lia.
Qed.

Lemma escape_each_grows s :
  List.In "&"%char s -> List.length s < List.length (escape_each s).
Proof.
  induction s as [|c s IH]; cbn [List.In]; [tauto|].
  cbn [escape_each List.flat_map List.length]. rewrite length_app.
  intros [->|H].
  - pose proof (escape_each_length s). unfold escape_each in *.
    change (List.length (escape_char "&")) with 5. lia.
  - specialize (IH H). pose proof (escape_char_length c).
    unfold escape_each in *. lia.
Qed.

Lemma escape_each_keeps_amp s :
  List.In "&"%char s -> List.In "&"%char (escape_each s).
Proof.
  induction s as [|c s IH]; cbn [List.In]; [tauto|].
  cbn [escape_each List.flat_map]. intros [->|H]; apply List.in_or_app.
  - left. cbn. now left.
  - right. now apply IH.
Qed.

Lemma escape_each_twice s :
  List.In "&"%char s -> escape_each (escape_each s) <> escape_each s.
Proof.
  intros H E. apply escape_each_keeps_amp, escape_each_grows in H.
  rewrite E in H. lia.
Qed.

End TextFacts.

(** ** Properties of the sort *)

Section SortFacts.
Import JsArray.
Context (e : engine) (d : nat -> Z).

Lemma before_le a b : before e d a b -> (d a <= d b)%Z.
Proof. unfold before. lia. Qed.

Lemma moves_before_true item element :
  element < item ->
  moves_before e (by_date d) item element = true -> before e d item element.
Proof.
  unfold moves_before, by_date, before, tie. intros Hlt.
  destruct e.
  - destruct (Z.ltb_spec (d item) (d element)); [left; lia|discriminate].
  - destruct (Z.ltb_spec (d element) (d item)); [discriminate|].
    intros _. destruct (Z.eq_dec (d item) (d element)); [right|left]; lia.
Qed.

Lemma moves_before_false item element :
  element < item ->
  moves_before e (by_date d) item element = false -> before e d element item.
Proof.
  unfold moves_before, by_date, before, tie. intros Hlt.
  destruct e.
  - destruct (Z.ltb_spec (d item) (d element)); [discriminate|].
    intros _. destruct (Z.eq_dec (d item) (d element)); [right|left]; lia.
  - destruct (Z.ltb_spec (d element) (d item)); [left; lia|discriminate].
Qed.

Lemma before_older x y item :
  before e d x y -> x < item -> before e d y item -> before e d x item.
Proof.
  unfold before, tie. intros Hxy Hlt Hyi.
  destruct (Z.eq_dec (d x) (d item)) as [E|N]; [|left; lia].
  destruct e; [right; lia|].
  destruct Hxy as [?|[? ?]], Hyi as [?|[? ?]]; lia.
Qed.

Lemma insert_back_perm item l :
  Permutation (insert_back e (by_date d) item l) (item :: l).
Proof.
  induction l as [|x l IH]; cbn; [reflexivity|].
  destruct (moves_before e (by_date d) item x); [|reflexivity].
  rewrite IH. apply perm_swap.
Qed.

Lemma insert_back_sorted item l :
  StronglySorted (flip (before e d)) l ->
  List.Forall (fun x => x < item) l ->
  StronglySorted (flip (before e d)) (insert_back e (by_date d) item l).
Proof.
  induction 1 as [|x l Hs IH Hx]; intros Hlt; cbn.
  - repeat constructor.
  - inversion Hlt as [|? ? Hxi Hli]; subst.
    destruct (moves_before e (by_date d) item x) eqn:E.
    + constructor; [now apply IH|].
      apply (Permutation_Forall (Permutation_sym (insert_back_perm item l))).
      constructor; [|exact Hx].
      now apply moves_before_true.
    + pose proof (moves_before_false _ _ Hxi E) as Hb.
      constructor; [now constructor|].
      constructor; [exact Hb|].
      rewrite List.Forall_forall in Hx, Hli |- *. intros y Hy.
      unfold flip in *. apply (before_older y x item); auto.
Qed.

Lemma StronglySorted_flip_rev {A} (R : A -> A -> Prop) l :
  StronglySorted (flip R) l -> StronglySorted R (rev l).
Proof.
  induction 1 as [|x l Hs IH Hx]; cbn; [constructor|].
  apply StronglySorted_app_2; [|exact IH|repeat constructor].
  intros a b Ha Hb. apply list_elem_of_In in Ha.
  apply list_elem_of_In in Hb. destruct Hb as [<-|[]].
  rewrite List.Forall_forall in Hx. apply Hx. now apply List.in_rev.
Qed.

Lemma sort_fold_perm arr acc :
  Permutation
    (fold_left (fun sorted_rev item => insert_back e (by_date d) item sorted_rev) arr acc)
    (rev arr ++ acc).
Proof.
  revert acc. induction arr as [|x arr IH]; intros acc; cbn; [reflexivity|].
  rewrite IH, insert_back_perm, <- List.app_assoc. cbn.
  apply Permutation_app_head. reflexivity.
Qed.

Lemma sort_perm arr : Permutation (sort e (by_date d) arr) arr.
Proof.
  unfold sort. rewrite <- Permutation_rev, sort_fold_perm, List.app_nil_r.
  symmetry. apply Permutation_rev.
Qed.

Lemma sort_fold_sorted arr acc :
  StronglySorted lt arr ->
  StronglySorted (flip (before e d)) acc ->
  List.Forall (fun x => List.Forall (fun y => x < y) arr) acc ->
  StronglySorted (flip (before e d))
    (fold_left (fun sorted_rev item => insert_back e (by_date d) item sorted_rev) arr acc).
Proof.
  intros Harr. revert acc.
  induction Harr as [|x arr Hs IH Hx]; intros acc Hacc Hlt; cbn; [exact Hacc|].
  apply IH.
  - apply insert_back_sorted; [exact Hacc|].
    eapply List.Forall_impl; [|exact Hlt]. intros a Ha. now inversion Ha.
  - apply (Permutation_Forall (Permutation_sym (insert_back_perm x acc))).
    constructor; [exact Hx|].
    eapply List.Forall_impl; [|exact Hlt]. intros a Ha. now inversion Ha.
Qed.

(** On an array whose elements stand in input order, the sort yields the
    order [before]. *)
Lemma sort_sorted arr :
  StronglySorted lt arr -> StronglySorted (before e d) (sort e (by_date d) arr).
Proof.
  intros H. unfold sort. apply StronglySorted_flip_rev.
  apply sort_fold_sorted; [exact H|constructor|constructor].
Qed.

Lemma StronglySorted_filter {A} (R : A -> A -> Prop) (f : A -> bool) l :
  StronglySorted R l -> StronglySorted R (List.filter f l).
Proof.
  induction 1 as [|x l Hs IH Hx]; cbn; [constructor|].
  destruct (f x); [|exact IH].
  constructor; [exact IH|].
  rewrite List.Forall_forall in Hx |- *. intros y Hy.
  apply List.filter_In in Hy. now apply Hx.
Qed.

Lemma seq_sorted n m : StronglySorted lt (seq n m).
Proof.
  revert n. induction m as [|m IH]; intros n; cbn; constructor; [apply IH|].
  apply List.Forall_forall. intros x Hx. apply List.in_seq in Hx. lia.
Qed.

End SortFacts.

(** ** Properties of the store operations *)

Section StoreFacts.
Import Http Client JsArray Tree.

Lemma same_fields_refl h : same_fields h h.
Proof. intros l. reflexivity. Qed.

Lemma same_fields_trans h1 h2 h3 :
  same_fields h1 h2 -> same_fields h2 h3 -> same_fields h1 h3.
Proof. intros H12 H23 l. now rewrite H23, H12. Qed.

Lemma same_fields_read {B} (g : comment -> B) (z : B) h h' l :
  same_fields h h' ->
  match h' !! l with Some o => g (fields o) | None => z end =
  match h !! l with Some o => g (fields o) | None => z end.
Proof.
  intros H. specialize (H l).
  destruct (h' !! l), (h !! l); simplify_eq/=; congruence.
Qed.

Lemma same_fields_parent h h' l : same_fields h h' -> parent_of h' l = parent_of h l.
Proof. apply (same_fields_read truthy_parent None). Qed.

Lemma same_fields_id h h' l : same_fields h h' -> id_of h' l = id_of h l.
Proof. apply (same_fields_read id 0%Z). Qed.

Lemma same_fields_date h h' l :
  same_fields h h' -> submitted_at_of h' l = submitted_at_of h l.
Proof. apply (same_fields_read submitted_at 0%Z). Qed.

Lemma same_fields_length h h' : same_fields h h' -> List.length h' = List.length h.
Proof.
  intros H.
  destruct (Nat.lt_trichotomy (List.length h') (List.length h)) as [L|[E|L]];
    [exfalso|exact E|exfalso].
  - specialize (H (List.length h')).
    rewrite (lookup_ge_None_2 h') in H by lia.
    destruct (lookup_lt_is_Some_2 h _ L) as [o Ho]. rewrite Ho in H. discriminate.
  - specialize (H (List.length h)).
    rewrite (lookup_ge_None_2 h) in H by lia.
    destruct (lookup_lt_is_Some_2 h' _ L) as [o Ho]. rewrite Ho in H. discriminate.
Qed.

Lemma assign_children_fields l h : same_fields h (assign_children l h).
Proof.
  intros x. unfold assign_children. rewrite list_lookup_alter.
  case_decide; [subst|reflexivity]. now destruct (h !! x).
Qed.

Lemma push_child_fields p l h : same_fields h (push_child p l h).
Proof.
  intros x. unfold push_child. rewrite list_lookup_alter.
  case_decide; [subst|reflexivity]. now destruct (h !! x).
Qed.

Lemma children_assign l h x :
  children_of (assign_children l h) x = if decide (l = x) then [] else children_of h x.
Proof.
  unfold children_of, assign_children. rewrite list_lookup_alter.
  case_decide; [subst|reflexivity]. now destruct (h !! x).
Qed.

Lemma children_push p l h x :
  x < List.length h ->
  children_of (push_child p l h) x =
  if decide (p = x) then children_of h x ++ [l] else children_of h x.
Proof.
  intros Hx. unfold children_of, push_child. rewrite list_lookup_alter.
  case_decide; [subst|reflexivity].
  destruct (lookup_lt_is_Some_2 h _ Hx) as [o Ho]. now rewrite Ho.
Qed.

(** *** The first loop *)

Lemma create_hash_fields arr st :
  same_fields (st_heap st) (st_heap (create_hash arr st)).
Proof.
  revert st. induction arr as [|l arr IH]; intros st; [apply same_fields_refl|].
  cbn. eapply same_fields_trans; [|apply IH]. apply assign_children_fields.
Qed.

Lemma create_hash_hash arr st :
  st_hash (create_hash arr st) =
  fold_left (fun m l => <[ id_of (st_heap st) l := l ]> m) arr (st_hash st).
Proof.
  revert st. induction arr as [|l arr IH]; intros st; [reflexivity|].
  cbn. rewrite IH. cbn.
  clear IH. generalize (<[id_of (st_heap st) l:=l]> (st_hash st)).
  induction arr as [|y arr IH]; intros m; [reflexivity|]. cbn.
  rewrite (same_fields_id _ _ y (assign_children_fields l (st_heap st))).
  apply IH.
Qed.

Lemma create_hash_children_other arr st x :
  ~ List.In x arr ->
  children_of (st_heap (create_hash arr st)) x = children_of (st_heap st) x.
Proof.
  revert st. induction arr as [|l arr IH]; intros st Hx; [reflexivity|].
  cbn [create_hash fold_left]. fold (create_hash arr (index_step st l)).
  rewrite IH by (intros ?; apply Hx; now right).
  cbn. rewrite children_assign, decide_False; [reflexivity|].
  intros ->. apply Hx. now left.
Qed.

Lemma create_hash_children arr st x :
  List.In x arr -> children_of (st_heap (create_hash arr st)) x = [].
Proof.
  revert st. induction arr as [|l arr IH]; intros st Hx; [destruct Hx|].
  cbn [create_hash fold_left]. fold (create_hash arr (index_step st l)).
  destruct (in_dec Nat.eq_dec x arr) as [I|I]; [now apply IH|].
  destruct Hx as [->|Hx]; [|contradiction].
  rewrite create_hash_children_other by exact I.
  cbn. rewrite children_assign. now rewrite decide_True.
Qed.

Section Index.
Context (idf : loc -> Z).

Lemma index_all_other arr m k :
  ~ List.In k (List.map idf arr) -> index_all idf arr m !! k = m !! k.
Proof.
  revert m. induction arr as [|l arr IH]; intros m Hk; [reflexivity|].
  cbn [List.map List.In] in Hk. unfold index_all. cbn [fold_left].
  fold (index_all idf arr (<[idf l:=l]> m)).
  rewrite IH by tauto. apply lookup_insert_ne. tauto.
Qed.

Lemma index_all_fetched arr m k :
  List.In k (List.map idf arr) ->
  exists l, List.In l arr /\ idf l = k /\ index_all idf arr m !! k = Some l.
Proof.
  revert m. induction arr as [|l arr IH]; intros m Hk; [destruct Hk|].
  unfold index_all. cbn [fold_left]. fold (index_all idf arr (<[idf l:=l]> m)).
  destruct (in_dec Z.eq_dec k (List.map idf arr)) as [I|I].
  - destruct (IH (<[idf l:=l]> m) I) as (l' & Hl' & Hid & Hlk).
    exists l'. split; [now right|]. now split.
  - destruct Hk as [E|Hk]; [|contradiction].
    exists l. split; [now left|]. split; [exact E|].
    rewrite index_all_other by exact I. subst k. apply lookup_insert_eq.
Qed.

End Index.

(** *** The second loop and the final filter *)

Lemma move_children_fields hash arr h :
  same_fields h (fst (move_children hash arr h)).
Proof.
  revert h. induction arr as [|l arr IH]; intros h; [apply same_fields_refl|].
  cbn. destruct (parent_of h l) as [pid|]; [|apply IH].
  destruct (hash !! pid) as [p|]; [|apply same_fields_refl].
  eapply same_fields_trans; [|apply IH]. apply push_child_fields.
Qed.

Lemma move_children_succeeds hash arr h :
  (forall l pid, List.In l arr -> parent_of h l = Some pid -> is_Some (hash !! pid)) ->
  snd (move_children hash arr h) = None.
Proof.
  revert h. induction arr as [|l arr IH]; intros h H; [reflexivity|].
  cbn. destruct (parent_of h l) as [pid|] eqn:E.
  - destruct (H l pid (or_introl eq_refl) E) as [p Hp]. rewrite Hp.
    apply IH. intros l' pid' Hl' Hpar.
    rewrite (same_fields_parent _ _ l' (push_child_fields p l h)) in Hpar.
    apply (H l' pid'); [now right|exact Hpar].
  - apply IH. intros l' pid' Hl' Hpar. apply (H l' pid'); [now right|exact Hpar].
Qed.

Lemma target_same h h' hash l : same_fields h h' -> target h' hash l = target h hash l.
Proof. intros H. unfold target. now rewrite (same_fields_parent h h' l H). Qed.

Lemma move_children_children hash arr h x :
  snd (move_children hash arr h) = None ->
  x < List.length h ->
  children_of (fst (move_children hash arr h)) x =
  children_of h x ++ List.filter (pushed_into h hash x) arr.
Proof.
  revert h. induction arr as [|l arr IH]; intros h Hok Hx.
  - cbn. now rewrite List.app_nil_r.
  - cbn [move_children List.filter] in Hok |- *.
    destruct (parent_of h l) as [pid|] eqn:E.
    + destruct (hash !! pid) as [p|] eqn:Ep; [|discriminate].
      assert (T : target h hash l = Some p) by (unfold target; now rewrite E).
      rewrite IH; [|exact Hok|unfold push_child; now rewrite length_alter].
      rewrite children_push by exact Hx.
      assert (F : List.filter (pushed_into (push_child p l h) hash x) arr =
                  List.filter (pushed_into h hash x) arr).
      { apply List.filter_ext. intros a. unfold pushed_into.
        now rewrite (target_same _ _ hash a (push_child_fields p l h)). }
      rewrite F. unfold pushed_into at 2. rewrite T.
      destruct (decide (p = x)) as [->|N].
      * rewrite bool_decide_eq_true_2 by reflexivity.
        now rewrite <- List.app_assoc.
      * rewrite bool_decide_eq_false_2 by congruence. reflexivity.
    + assert (T : target h hash l = None) by (unfold target; now rewrite E).
      unfold pushed_into at 1. rewrite T.
      rewrite bool_decide_eq_false_2 by discriminate. now apply IH.
Qed.

Lemma roots_fold h arr acc :
  fold_left (fun acc curr =>
               match parent_of h curr with
               | None => acc ++ [curr]
               | Some _ => acc
               end) arr acc =
  acc ++ List.filter (is_root h) arr.
Proof.
  revert acc. induction arr as [|l arr IH]; intros acc.
  - cbn. now rewrite List.app_nil_r.
  - cbn [fold_left List.filter]. rewrite IH. unfold is_root at 2.
    destruct (parent_of h l); [reflexivity|].
    now rewrite <- List.app_assoc.
Qed.

Lemma roots_filter h arr : roots h arr = List.filter (is_root h) arr.
Proof. unfold roots. now rewrite roots_fold. Qed.

End StoreFacts.

(** ** The assembly as a whole *)

Section AssembleFacts.
Import Http Client JsArray Tree.

Lemma loaded_lookup h cs i c :
  cs !! i = Some c -> loaded h cs !! (List.length h + i) = Some (fresh c).
Proof.
  intros H. unfold loaded. rewrite lookup_app_r by lia.
  replace (List.length h + i - List.length h) with i by lia.
  change (List.map fresh cs) with (fresh <$> cs).
  now rewrite list_lookup_fmap, H.
Qed.

Lemma fetched_of_comment h cs c :
  List.In c cs ->
  exists l, List.In l (fetched h cs) /\ loaded h cs !! l = Some (fresh c).
Proof.
  intros H. apply list_elem_of_In, list_elem_of_lookup in H. destruct H as [i Hi].
  exists (List.length h + i). split; [|now apply loaded_lookup].
  apply List.in_seq. apply lookup_lt_Some in Hi. lia.
Qed.

Lemma comment_of_fetched h cs l :
  List.In l (fetched h cs) ->
  exists c, List.In c cs /\ loaded h cs !! l = Some (fresh c).
Proof.
  intros H. apply List.in_seq in H.
  destruct (lookup_lt_is_Some_2 cs (l - List.length h)) as [c Hc]; [lia|].
  exists c. split.
  - apply list_elem_of_In, list_elem_of_lookup. eauto.
  - replace l with (List.length h + (l - List.length h)) by lia.
    now apply loaded_lookup.
Qed.

Lemma sorted_fetched e h cs l : List.In l (sorted e h cs) <-> List.In l (fetched h cs).
Proof.
  unfold sorted. split; apply Permutation_in; [|symmetry]; apply sort_perm.
Qed.

Lemma fetched_valid h cs l :
  List.In l (fetched h cs) -> l < List.length (loaded h cs).
Proof.
  intros H. apply List.in_seq in H. unfold loaded.
  rewrite length_app, length_map. lia.
Qed.

Lemma truthy_parent_some c p : truthy_parent c = Some p -> parent_id c = Some p.
Proof.
  unfold truthy_parent. destruct (parent_id c) as [q|]; [|discriminate].
  destruct (q =? 0)%Z; [discriminate|]. congruence.
Qed.

(** With the parents resolved the index answers every parent lookup of the
    second loop. *)
Lemma parents_indexed e h cs hash l pid :
  parents_resolve cs ->
  List.In l (sorted e h cs) ->
  parent_of (loaded h cs) l = Some pid ->
  exists p, List.In p (sorted e h cs) /\ id_of (loaded h cs) p = pid /\
            indexed e h cs hash !! pid = Some p.
Proof.
  intros Hres Hl Hpar. apply sorted_fetched in Hl.
  destruct (comment_of_fetched h cs l Hl) as (c & Hc & Hlc).
  unfold parent_of in Hpar. rewrite Hlc in Hpar. cbn in Hpar.
  apply truthy_parent_some in Hpar.
  destruct (Hres c pid Hc Hpar) as (c' & Hc' & Hid).
  destruct (fetched_of_comment h cs c' Hc') as (l' & Hl' & Hlc').
  apply index_all_fetched. apply List.in_map_iff. exists l'. split.
  - unfold id_of. now rewrite Hlc'.
  - now apply sorted_fetched.
Qed.

Lemma assemble_unfold e cs st :
  assemble e cs st =
  let arr := sorted e (st_heap st) cs in
  let st1 := create_hash arr {| st_heap := loaded (st_heap st) cs; st_hash := st_hash st |} in
  match move_children (st_hash st1) arr (st_heap st1) with
  | (h2, None) => ({| st_heap := h2; st_hash := st_hash st1 |}, Resolved (roots h2 arr))
  | (h2, Some err) => ({| st_heap := h2; st_hash := st_hash st1 |}, Rejected err)
  end.
Proof. reflexivity. Qed.

(** What a call leaves in the index, whether it resolves or not. *)
Lemma assemble_hash e cs st :
  st_hash (fst (assemble e cs st)) = indexed e (st_heap st) cs (st_hash st).
Proof.
  rewrite assemble_unfold. cbv zeta.
  destruct (move_children _ _ _) as [h2 [err|]]; cbn [fst st_hash];
    now rewrite create_hash_hash.
Qed.

(** The result of the assembly when the parents resolve: the roots and the
    children lists are sublists of the sorted array. *)
Lemma assemble_resolves e cs st :
  parents_resolve cs ->
  let h0 := loaded (st_heap st) cs in
  let arr := sorted e (st_heap st) cs in
  let hash' := indexed e (st_heap st) cs (st_hash st) in
  exists h',
    assemble e cs st =
      ({| st_heap := h'; st_hash := hash' |}, Resolved (List.filter (is_root h0) arr)) /\
    same_fields h0 h' /\
    forall x, List.In x arr ->
              children_of h' x = List.filter (pushed_into h0 hash' x) arr.
Proof.
  intros Hres h0 arr hash'. rewrite assemble_unfold. cbv zeta.
  fold h0 arr.
  set (st0 := {| st_heap := h0; st_hash := st_hash st |}).
  pose proof (create_hash_fields arr st0) as F1.
  pose proof (create_hash_hash arr st0) as Hh. cbn [st_heap st_hash st0] in F1, Hh.
  fold (index_all (id_of h0) arr (st_hash st)) in Hh.
  change (index_all (id_of h0) arr (st_hash st)) with hash' in Hh. rewrite Hh.
  set (h1 := st_heap (create_hash arr st0)) in *.
  assert (Hok : snd (move_children hash' arr h1) = None).
  { apply move_children_succeeds. intros l pid Hl Hpar.
    rewrite (same_fields_parent _ _ l F1) in Hpar.
    destruct (parents_indexed e (st_heap st) cs (st_hash st) l pid Hres Hl Hpar)
      as (p & _ & _ & Hp).
    now exists p. }
  pose proof (move_children_fields hash' arr h1) as F2.
  pose proof (fun x => move_children_children hash' arr h1 x Hok) as Hch.
  destruct (move_children hash' arr h1) as [h2 r]. cbn [fst snd] in *. subst r.
  pose proof (same_fields_trans _ _ _ F1 F2) as F.
  exists h2. split; [|split; [exact F|]].
  - f_equal. f_equal. rewrite roots_filter. apply List.filter_ext.
    intros a. unfold is_root. now rewrite (same_fields_parent _ _ a F).
  - intros x Hx. rewrite Hch.
    + unfold h1 at 1. rewrite (create_hash_children arr st0 x Hx). cbn [List.app].
      apply List.filter_ext. intros a. unfold pushed_into.
      now rewrite (target_same _ _ hash' a F1).
    + rewrite (same_fields_length _ _ F1). apply fetched_valid.
      now apply sorted_fetched in Hx.
Qed.

Lemma assemble_fields e cs st :
  same_fields (loaded (st_heap st) cs) (st_heap (fst (assemble e cs st))).
Proof.
  rewrite assemble_unfold. cbv zeta.
  set (arr := sorted e (st_heap st) cs).
  set (st0 := {| st_heap := loaded (st_heap st) cs; st_hash := st_hash st |}).
  pose proof (create_hash_fields arr st0) as F1.
  pose proof (move_children_fields (st_hash (create_hash arr st0)) arr
                (st_heap (create_hash arr st0))) as F2.
  destruct (move_children _ _ _) as [h2 [err|]]; cbn [fst st_heap] in *;
    exact (same_fields_trans _ _ _ F1 F2).
Qed.

Lemma sorted_ids e h cs k :
  List.In k (List.map (id_of (loaded h cs)) (sorted e h cs)) <->
  List.In k (List.map id cs).
Proof.
  rewrite !List.in_map_iff. split.
  - intros (l & Hid & Hl). apply sorted_fetched in Hl.
    destruct (comment_of_fetched h cs l Hl) as (c & Hc & Hlc).
    exists c. split; [|exact Hc]. unfold id_of in Hid. now rewrite Hlc in Hid.
  - intros (c & Hid & Hc).
    destruct (fetched_of_comment h cs c Hc) as (l & Hl & Hlc).
    exists l. split; [|now apply sorted_fetched]. unfold id_of. now rewrite Hlc.
Qed.

End AssembleFacts.

(** ** Claims on the text utilities *)

Section TextClaims.
Import JsString Regex Text TextSpec Samples.
Local Open Scope string_scope.

(** C5. [cleanSlug] is the normalisation the specification words: the input
    is lower-cased, one leading and one trailing slash are stripped when
    present, every slash that remains becomes an underscore, and the
    result is trimmed; the two sample slugs come out as documented. *)
Theorem cleanSlug_normalizes :
  (forall slug : string,
      cleanSlug slug = string_of_list_ascii (normalize_slug (lit slug))) /\
  cleanSlug "/My-Post/Sub/" = "my-post_sub" /\
  cleanSlug "Already_Clean" = "already_clean".
Proof.
  split; [|split; reflexivity].
  intros slug. unfold cleanSlug. now rewrite cleanSlug_str_spec.
Qed.

(** C10. [cleanSlug] is idempotent: a second pass leaves the result of the
    first unchanged. *)
Theorem cleanSlug_idempotent :
  forall slug : string, cleanSlug (cleanSlug slug) = cleanSlug slug.
Proof.
  intros slug. unfold cleanSlug. rewrite lit_string_of_list. f_equal.
  rewrite !cleanSlug_str_spec. apply slug_chars_fixed.
  - apply normalize_slug_chars.
  - unfold normalize_slug. apply trim_idem.
Qed.

(** C7. One pass of [escapeHtml] maps every character on its own: each of
    the five special characters becomes its entity, every other character
    is kept, and the replacement text is not scanned again; the sample
    with quotes inside a tag comes out fully escaped. *)
Theorem escapeHtml_each_char :
  (forall text : string,
      escapeHtml text = string_of_list_ascii (escape_each (lit text))) /\
  escapeHtml quoted_sample = "&lt;b&gt;&quot;x&quot;&lt;/b&gt;".
Proof.
  split; [|reflexivity].
  intros text. unfold escapeHtml. now rewrite escapeHtml_str_spec.
Qed.

(** C8. [escapeHtml] is not idempotent: a second pass changes the result of
    the first for the input made of one ampersand, and more generally for
    every input that contains an ampersand. *)
Theorem escapeHtml_not_idempotent :
  (exists x : string, escapeHtml (escapeHtml x) <> escapeHtml x) /\
  (forall x : string,
      List.In "&"%char (lit x) -> escapeHtml (escapeHtml x) <> escapeHtml x).
Proof.
  assert (G : forall x : string,
             List.In "&"%char (lit x) -> escapeHtml (escapeHtml x) <> escapeHtml x).
  { intros x H E. unfold escapeHtml in E. apply string_of_list_inj in E.
    rewrite lit_string_of_list, !escapeHtml_str_spec in E.
    now apply (escape_each_twice (lit x)). }
  split; [|exact G].
  exists "&". apply G. cbn. now left.
Qed.

Lemma escapeHtml_not_idempotent_witness :
  List.In "&"%char (lit "a&b") /\
  escapeHtml (escapeHtml "a&b") <> escapeHtml "a&b".
Proof.
  assert (H : List.In "&"%char (lit "a&b")) by (cbn; tauto).
  split; [exact H|].
  exact (proj2 escapeHtml_not_idempotent "a&b" H).
Defined.

(** C6. On the text with a bold and an italic span, [parseMd] produces no
    strong tag: the italic pattern runs before the bold one and consumes
    both pairs of asterisks around the bold word as two empty italic
    spans. *)
Theorem parseMd_bold_and_italic :
  parseMd "**bold** and *italic*" = "<p><i></i>bold<i></i> and <i>italic</i></p>".
Proof. reflexivity. Qed.

End TextClaims.

(** ** Claims on the requests *)

Section RequestClaims.
Import Http Client JsArray Tree Samples.
Local Open Scope string_scope.

(** C9. For each of the five mutating operations, a response whose status
    is outside 200-299 rejects the returned promise with the text of the
    response body, and a response whose status is inside resolves it with
    no payload. *)
Theorem mutations_settle_by_status {J : Type} (fetch : fetch_fn J)
    (this : Jamments) (op : mutation) (res : response J) :
  fetch (request_of this op) = Responded res ->
  ((status res < 200 \/ 299 < status res)%Z ->
   forall msg, text res = Resolved msg ->
               perform fetch this op = Rejected (Message msg)) /\
  ((200 <= status res <= 299)%Z -> perform fetch this op = Resolved tt).
Proof.
  intros Hres.
  assert (E : perform fetch this op =
              if negb (ok res)
              then match text res with
                   | Resolved msg => Rejected (Message msg)
                   | Rejected err => Rejected err
                   end
              else Resolved tt).
  { destruct op; cbn [perform request_of] in *;
      unfold postComment, updateComment, deleteComment, validateComment,
        updateNewCommentsSubscription, ajax; now rewrite Hres. }
  rewrite E. unfold ok. split.
  - intros Hs msg Hmsg. rewrite Hmsg.
    destruct (Z.leb_spec 200 (status res)), (Z.leb_spec (status res) 299);
      cbn; try reflexivity; lia.
  - intros Hs.
    destruct (Z.leb_spec 200 (status res)), (Z.leb_spec (status res) 299);
      cbn; try reflexivity; lia.
Qed.

Lemma mutations_settle_by_status_witness :
  always forbidden (request_of sample_client (DeleteComment "12" "s3cret"))
    = Responded forbidden /\
  ((status forbidden < 200 \/ 299 < status forbidden)%Z ->
   forall msg, text forbidden = Resolved msg ->
               perform (always forbidden) sample_client (DeleteComment "12" "s3cret")
                 = Rejected (Message msg)) /\
  ((200 <= status forbidden <= 299)%Z ->
   perform (always forbidden) sample_client (DeleteComment "12" "s3cret") = Resolved tt).
Proof.
  split; [reflexivity|].
  apply (mutations_settle_by_status (always forbidden) sample_client
           (DeleteComment "12" "s3cret") forbidden).
  reflexivity.
Defined.

(** C4, as it is stated, fails: the request of [getComments] for the slug
    with a space does not go to the URL with an underscore; a transport
    that serves only that URL sees the call fail. *)
Lemma getComments_url_counterexample :
  constructor (Some {| cfg_endpoint := Some "https://api.example.com";
                       cfg_cachedFilesURI := Some "static" |}) = inr sample_client /\
  comments_url sample_client "Hello World"
    <> "https://api.example.com/static/hello_world.json" /\
  getComments LessThanZero
    (serve_only "https://api.example.com/static/hello_world.json" [])
    "Hello World" [] sample_client
  = ([], sample_client, Rejected (TransportError "Failed to fetch")).
Proof. split; [reflexivity|]. split; [discriminate|reflexivity]. Qed.

(** C4, amended. For the client built with the endpoint
    https://api.example.com and the cache path static, [getComments] on the
    slug Hello World sends its GET request to the URL whose file name keeps
    the space: the slug is lower-cased, and only slashes become
    underscores. *)
Theorem getComments_url_hello_world :
  constructor (Some {| cfg_endpoint := Some "https://api.example.com";
                       cfg_cachedFilesURI := Some "static" |}) = inr sample_client /\
  comments_url sample_client "Hello World"
    = "https://api.example.com/static/hello world.json" /\
  forall e (fetch : fetch_fn (list comment)) h,
    getComments e fetch "Hello World" h sample_client =
    match fetch (get_request "https://api.example.com/static/hello world.json") with
    | Responded res =>
        if ok res
        then match json res with
             | Resolved cs =>
                 let sr := assemble e cs {| st_heap := h; st_hash := ∅ |} in
                 (st_heap (fst sr),
                  {| endpoint := "https://api.example.com";
                     cachedFilesURI := "static";
                     commentsHash := st_hash (fst sr) |},
                  snd sr)
             | Rejected err => (h, sample_client, Rejected err)
             end
        else (h, sample_client, Rejected (StatusError (status res)))
    | Failed err => (h, sample_client, Rejected err)
    end.
Proof.
  split; [reflexivity|]. split; [reflexivity|].
  intros e fetch h. unfold getComments, getJsonData.
  change (comments_url sample_client "Hello World")
    with "https://api.example.com/static/hello world.json".
  destruct (fetch _) as [res|err]; [|reflexivity].
  destruct (ok res); cbn [negb]; [|reflexivity].
  destruct (json res) as [cs|err]; [|reflexivity].
  cbn [commentsHash sample_client endpoint cachedFilesURI].
  now destruct (assemble e cs _).
Qed.

End RequestClaims.

(** ** Claims on the comment tree *)

Section TreeClaims.
Import Http Client JsArray Tree Samples.
Local Open Scope Z_scope.

Lemma getComments_resolved e (fetch : fetch_fn (list comment)) slug h this cs :
  getJsonData fetch (comments_url this slug) = Resolved cs ->
  getComments e fetch slug h this =
  let sr := assemble e cs {| st_heap := h; st_hash := commentsHash this |} in
  (st_heap (fst sr),
   {| endpoint := endpoint this;
      cachedFilesURI := cachedFilesURI this;
      commentsHash := st_hash (fst sr) |},
   snd sr).
Proof.
  intros H. unfold getComments. rewrite H. now destruct (assemble e cs _).
Qed.

Lemma StronglySorted_weaken {A} (R R' : A -> A -> Prop) l :
  (forall a b, R a b -> R' a b) -> StronglySorted R l -> StronglySorted R' l.
Proof.
  intros HR. induction 1 as [|x l Hs IH Hx]; constructor; [exact IH|].
  eapply List.Forall_impl; [|exact Hx]. intros b. apply HR.
Qed.

Lemma before_same_dates e (d d' : nat -> Z) a b :
  (forall x, d' x = d x) -> before e d a b -> before e d' a b.
Proof. intros H. unfold before. now rewrite !H. Qed.

Lemma compare_on_ties h a b :
  submitted_at_of h a = submitted_at_of h b -> compare h a b = 1 /\ compare h b a = 1.
Proof.
  intros E. unfold compare. rewrite E, Z.ltb_irrefl. now split.
Qed.

(** On the two comments of one date the engine that only asks for a
    negative answer keeps the input order. *)
Example getComments_ties_kept :
  snd (assemble LessThanZero [record 1 None 20; record 2 None 20] no_state)
  = Resolved [0%nat; 1%nat].
Proof. reflexivity. Qed.

(** C1, as it is stated, fails on the order of equal timestamps: the
    comparator answers 1 for two comments of the same date, whichever comes
    first, and an engine that acts on this answer returns them in reverse
    input order. *)
Lemma getComments_ties_counterexample :
  let cs := [record 1 None 20; record 2 None 20] in
  parents_resolve cs /\
  compare (loaded [] cs) 0%nat 1%nat = 1 /\
  compare (loaded [] cs) 1%nat 0%nat = 1 /\
  snd (assemble AtMostZero cs no_state) = Resolved [1%nat; 0%nat] /\
  ~ stable_order (st_heap (fst (assemble AtMostZero cs no_state))) [1%nat; 0%nat].
Proof.
  cbv zeta. split.
  { intros c p [<-|[<-|[]]]; discriminate. }
  do 3 (split; [reflexivity|]).
  intros H. inversion H as [|? ? _ Hx]; subst.
  inversion Hx as [|? ? Hb _]; subst.
  destruct Hb as [Hb|[_ Hb]]; [vm_compute in Hb; discriminate|].
  cbn in Hb. lia.
Qed.

(** C1, amended. When the parent references resolve, [getComments] returns
    a forest whose roots, and the children of each fetched comment, follow
    each other by ascending [submitted_at]. Among equal timestamps the
    order is the input order on engines that only ask whether the
    comparator answers less than zero, and the reverse input order on
    engines that move an item forward unless the answer is at most zero:
    the comparator answers 1, never 0, on equal timestamps. *)
Theorem getComments_siblings_by_date e (fetch : fetch_fn (list comment))
    slug h this cs :
  getJsonData fetch (comments_url this slug) = Resolved cs ->
  parents_resolve cs ->
  exists h' this' forest,
    getComments e fetch slug h this = (h', this', Resolved forest) /\
    (forall i c, cs !! i = Some c ->
                 fields <$> (h' !! (List.length h + i)%nat) = Some c) /\
    (chronological h' forest /\
     StronglySorted (before e (submitted_at_of h')) forest) /\
    (forall p, List.In p (fetched h cs) ->
               chronological h' (children_of h' p) /\
               StronglySorted (before e (submitted_at_of h')) (children_of h' p)).
Proof.
  intros Hfetch Hres.
  destruct (assemble_resolves e cs {| st_heap := h; st_hash := commentsHash this |} Hres)
    as (h' & Heq & F & Hch). cbn [st_heap st_hash] in *.
  rewrite (getComments_resolved e fetch slug h this cs Hfetch), Heq. cbn.
  eexists _, _, _. split; [reflexivity|].
  assert (S0 : StronglySorted (before e (submitted_at_of h')) (sorted e h cs)).
  { apply (StronglySorted_weaken (before e (submitted_at_of (loaded h cs)))).
    - intros a b. apply before_same_dates. intros x. now apply same_fields_date.
    - apply sort_sorted, seq_sorted. }
  assert (W : forall l, StronglySorted (before e (submitted_at_of h')) l ->
                        chronological h' l).
  { intros l. apply StronglySorted_weaken. intros a b. apply before_le. }
  split; [|split].
  - intros i c Hi. rewrite F. now rewrite (loaded_lookup h cs i c Hi).
  - split; [apply W|]; now apply StronglySorted_filter.
  - intros p Hp. rewrite Hch by now apply sorted_fetched.
    split; [apply W|]; now apply StronglySorted_filter.
Qed.

Lemma sample_thread_resolves : parents_resolve sample_thread.
Proof.
  intros c p [<-|[<-|[<-|[<-|[]]]]] E; inversion E; subst;
    exists (record 1 None 30); (split; [now left|reflexivity]).
Qed.

Lemma getComments_siblings_by_date_witness :
  getJsonData (serve_only "https://api.example.com/static/post.json" sample_thread)
    (comments_url sample_client "/Post/") = Resolved sample_thread /\
  parents_resolve sample_thread /\
  exists h' this' forest,
    getComments AtMostZero
      (serve_only "https://api.example.com/static/post.json" sample_thread)
      "/Post/" [] sample_client = (h', this', Resolved forest) /\
    (forall i c, sample_thread !! i = Some c ->
                 fields <$> (h' !! (List.length (@nil object) + i)%nat) = Some c) /\
    (chronological h' forest /\
     StronglySorted (before AtMostZero (submitted_at_of h')) forest) /\
    (forall p, List.In p (fetched [] sample_thread) ->
               chronological h' (children_of h' p) /\
               StronglySorted (before AtMostZero (submitted_at_of h')) (children_of h' p)).
Proof.
  split; [reflexivity|]. split; [exact sample_thread_resolves|].
  apply (getComments_siblings_by_date AtMostZero
           (serve_only "https://api.example.com/static/post.json" sample_thread)
           "/Post/" [] sample_client sample_thread);
    [reflexivity|exact sample_thread_resolves].
Defined.

(** *** Places in the forest *)

Lemma occurrences_filter (f : loc -> bool) arr l :
  occurrences l (List.filter f arr) = if f l then occurrences l arr else 0%nat.
Proof.
  unfold occurrences. induction arr as [|x arr IH]; cbn.
  - now destruct (f l).
  - destruct (f x) eqn:E; cbn; destruct (Nat.eq_dec x l) as [->|N].
    + rewrite IH, E. reflexivity.
    + exact IH.
    + rewrite IH. destruct (f l); [discriminate|reflexivity].
    + exact IH.
Qed.

Lemma occurrences_sorted e h cs l :
  List.In l (fetched h cs) -> occurrences l (sorted e h cs) = 1%nat.
Proof.
  intros H. unfold occurrences. apply NoDup_count_occ'.
  - apply (Permutation_NoDup (Permutation_sym (sort_perm _ _ _))), List.seq_NoDup.
  - now apply sorted_fetched.
Qed.

Lemma nothing_reachable_from_nil h l : ~ reachable h [] l.
Proof. induction 1 as [l []|]; assumption. Qed.

(** C2, as it is stated, fails: a comment that names itself as its parent
    has a parent reference that resolves, and it ends up in its own
    [children] array and in no other place; the returned forest is empty
    and does not lead to it. *)
Lemma getComments_reachable_counterexample :
  let cs := [record 1 (Some 1) 30] in
  parents_resolve cs /\
  List.In 0%nat (fetched [] cs) /\
  snd (assemble LessThanZero cs no_state) = Resolved [] /\
  children_of (st_heap (fst (assemble LessThanZero cs no_state))) 0%nat = [0%nat] /\
  ~ reachable (st_heap (fst (assemble LessThanZero cs no_state))) [] 0%nat.
Proof.
  cbv zeta. split.
  { intros c p [<-|[]] E. inversion E; subst.
    exists (record 1 (Some 1) 30). split; [now left|reflexivity]. }
  split; [now left|]. do 2 (split; [reflexivity|]).
  apply nothing_reachable_from_nil.
Qed.

(** C2, amended. When the parent references resolve, [getComments] leaves
    every fetched identifier in the index, mapped to a fetched comment of
    that identifier, and every fetched comment in exactly one place: once
    among the roots and in no [children] array when its parent reference
    is null or zero, and otherwise once in the [children] array of the
    comment the index holds for its parent, and nowhere else. A comment
    whose chain of parents ends at a comment without a parent can be
    reached from the roots. *)
Theorem getComments_one_place e (fetch : fetch_fn (list comment))
    slug h this cs :
  getJsonData fetch (comments_url this slug) = Resolved cs ->
  parents_resolve cs ->
  exists h' this' forest,
    getComments e fetch slug h this = (h', this', Resolved forest) /\
    (forall c, List.In c cs ->
       exists l, commentsHash this' !! id c = Some l /\
                 List.In l (fetched h cs) /\ id_of h' l = id c) /\
    (forall l, List.In l (fetched h cs) ->
       (parent_of h' l = None /\
        occurrences l forest = 1%nat /\
        forall p, List.In p (fetched h cs) ->
                  occurrences l (children_of h' p) = 0%nat)
       \/
       (exists pid p,
          parent_of h' l = Some pid /\
          commentsHash this' !! pid = Some p /\
          List.In p (fetched h cs) /\
          occurrences l forest = 0%nat /\
          occurrences l (children_of h' p) = 1%nat /\
          forall p', List.In p' (fetched h cs) -> p' <> p ->
                     occurrences l (children_of h' p') = 0%nat)) /\
    (forall l, List.In l (fetched h cs) ->
               grounded h' (commentsHash this') l -> reachable h' forest l).
Proof.
  intros Hfetch Hres.
  destruct (assemble_resolves e cs {| st_heap := h; st_hash := commentsHash this |} Hres)
    as (h' & Heq & F & Hch). cbn [st_heap st_hash] in *.
  rewrite (getComments_resolved e fetch slug h this cs Hfetch), Heq.
  cbn [fst snd st_heap st_hash].
  set (h0 := loaded h cs) in *. set (arr := sorted e h cs) in *.
  set (hash' := indexed e h cs (commentsHash this)) in *.
  eexists _, _, _. split; [reflexivity|]. cbn [commentsHash].
  assert (Hpar : forall l, parent_of h' l = parent_of h0 l).
  { intros l. now apply same_fields_parent. }
  assert (Hplace : forall l, List.In l (fetched h cs) ->
     (parent_of h0 l = None /\
      occurrences l (List.filter (is_root h0) arr) = 1%nat /\
      forall p, List.In p (fetched h cs) -> occurrences l (children_of h' p) = 0%nat)
     \/
     (exists pid p,
        parent_of h0 l = Some pid /\ hash' !! pid = Some p /\
        List.In p (fetched h cs) /\
        occurrences l (List.filter (is_root h0) arr) = 0%nat /\
        occurrences l (children_of h' p) = 1%nat /\
        forall p', List.In p' (fetched h cs) -> p' <> p ->
                   occurrences l (children_of h' p') = 0%nat)).
  { intros l Hl.
    assert (Hc : forall p, List.In p (fetched h cs) ->
                 occurrences l (children_of h' p) =
                 if pushed_into h0 hash' p l then 1%nat else 0%nat).
    { intros p Hp. rewrite Hch by now apply sorted_fetched.
      rewrite occurrences_filter. unfold arr. now rewrite occurrences_sorted. }
    rewrite occurrences_filter. unfold arr at 1 2.
    rewrite (occurrences_sorted e h cs l Hl). fold arr.
    unfold is_root. destruct (parent_of h0 l) as [pid|] eqn:E.
    - right.
      destruct (parents_indexed e h cs (commentsHash this) l pid Hres
                  (proj2 (sorted_fetched e h cs l) Hl) E) as (p & Hp & _ & Hlk).
      fold hash' in Hlk.
      assert (T : target h0 hash' l = Some p) by (unfold target; now rewrite E).
      exists pid, p. split; [reflexivity|]. split; [exact Hlk|].
      apply sorted_fetched in Hp. split; [exact Hp|]. split; [reflexivity|]. split.
      + rewrite Hc by exact Hp. unfold pushed_into. rewrite T.
        now rewrite bool_decide_eq_true_2.
      + intros p' Hp' Hne. rewrite Hc by exact Hp'. unfold pushed_into. rewrite T.
        rewrite bool_decide_eq_false_2; [reflexivity|congruence].
    - left. split; [reflexivity|]. split; [reflexivity|].
      intros p Hp. rewrite Hc by exact Hp. unfold pushed_into, target. rewrite E.
      now rewrite bool_decide_eq_false_2. }
  split; [|split].
  - intros c Hc.
    destruct (fetched_of_comment h cs c Hc) as (l & Hl & Hlc).
    destruct (index_all_fetched (id_of h0) arr (commentsHash this) (id c))
      as (l' & Hl' & Hid & Hlk).
    { apply List.in_map_iff. exists l. split.
      - unfold id_of, h0. now rewrite Hlc.
      - now apply sorted_fetched. }
    exists l'. split; [exact Hlk|]. split; [now apply sorted_fetched in Hl'|].
    now rewrite (same_fields_id _ _ l' F).
  - intros l Hl. destruct (Hplace l Hl) as [(P & O & N)|(pid & p & P & K & I & O & C & N)].
    + left. rewrite Hpar. now repeat split.
    + right. exists pid, p. rewrite Hpar. now repeat split.
  - intros l Hl G. revert Hl.
    induction G as [l Hroot|l pid p Hp Hlk G IH]; intros Hl.
    + apply reach_root. rewrite Hpar in Hroot.
      apply List.filter_In. split; [now apply sorted_fetched|].
      unfold is_root. now rewrite Hroot.
    + rewrite Hpar in Hp.
      destruct (parents_indexed e h cs (commentsHash this) l pid Hres
                  (proj2 (sorted_fetched e h cs l) Hl) Hp) as (p' & Hp' & _ & Hlk').
      fold hash' in Hlk'. rewrite Hlk in Hlk'. injection Hlk' as <-.
      apply (reach_child _ _ p); [apply IH; now apply sorted_fetched in Hp'|].
      rewrite Hch by exact Hp'.
      apply List.filter_In. split; [now apply sorted_fetched|].
      unfold pushed_into, target. rewrite Hp, Hlk.
      now rewrite bool_decide_eq_true_2.
Qed.

Lemma getComments_one_place_witness :
  getJsonData (serve_only "https://api.example.com/static/post.json" sample_thread)
    (comments_url sample_client "/Post/") = Resolved sample_thread /\
  parents_resolve sample_thread /\
  exists h' this' forest,
    getComments LessThanZero
      (serve_only "https://api.example.com/static/post.json" sample_thread)
      "/Post/" [] sample_client = (h', this', Resolved forest) /\
    (forall c, List.In c sample_thread ->
       exists l, commentsHash this' !! id c = Some l /\
                 List.In l (fetched [] sample_thread) /\ id_of h' l = id c) /\
    (forall l, List.In l (fetched [] sample_thread) ->
       (parent_of h' l = None /\
        occurrences l forest = 1%nat /\
        forall p, List.In p (fetched [] sample_thread) ->
                  occurrences l (children_of h' p) = 0%nat)
       \/
       (exists pid p,
          parent_of h' l = Some pid /\
          commentsHash this' !! pid = Some p /\
          List.In p (fetched [] sample_thread) /\
          occurrences l forest = 0%nat /\
          occurrences l (children_of h' p) = 1%nat /\
          forall p', List.In p' (fetched [] sample_thread) -> p' <> p ->
                     occurrences l (children_of h' p') = 0%nat)) /\
    (forall l, List.In l (fetched [] sample_thread) ->
               grounded h' (commentsHash this') l -> reachable h' forest l).
Proof.
  split; [reflexivity|]. split; [exact sample_thread_resolves|].
  apply (getComments_one_place LessThanZero
           (serve_only "https://api.example.com/static/post.json" sample_thread)
           "/Post/" [] sample_client sample_thread);
    [reflexivity|exact sample_thread_resolves].
Defined.

(** *** The index across calls *)

(** C3, as it is stated, fails: after a first call that fetched comment 1
    and a second call that fetched only comment 2, the index still answers
    for identifier 1. *)
Lemma getComments_index_counterexample :
  let '(h1, this1, r1) :=
    getComments LessThanZero
      (serve_only "https://api.example.com/static/a.json" first_page)
      "a" [] sample_client in
  let '(h2, this2, r2) :=
    getComments LessThanZero
      (serve_only "https://api.example.com/static/b.json" second_page)
      "b" h1 this1 in
  r1 = Resolved [0%nat] /\
  r2 = Resolved [1%nat] /\
  getCommentById this2 1 = Some 0%nat /\
  ~ (forall k, is_Some (getCommentById this2 k) <-> List.In k (List.map id second_page)).
Proof.
  vm_compute. do 3 (split; [reflexivity|]).
  intros H. destruct (proj1 (H 1) (ex_intro _ _ eq_refl)) as [E|[]].
  discriminate.
Qed.

(** C3, amended. A call of [getComments] that got its array writes into the
    index the client already has: after the call every fetched identifier
    is mapped to a comment fetched by this call, and every other
    identifier is mapped as it was before the call, so the entries of
    earlier calls stay. *)
Theorem getComments_index_merges e (fetch : fetch_fn (list comment))
    slug h this cs :
  getJsonData fetch (comments_url this slug) = Resolved cs ->
  let h' := fst (fst (getComments e fetch slug h this)) in
  let this' := snd (fst (getComments e fetch slug h this)) in
  (forall k, List.In k (List.map id cs) ->
     exists l, List.In l (fetched h cs) /\
               getCommentById this' k = Some l /\ id_of h' l = k) /\
  (forall k, ~ List.In k (List.map id cs) ->
     getCommentById this' k = getCommentById this k).
Proof.
  intros Hfetch. rewrite (getComments_resolved e fetch slug h this cs Hfetch).
  cbv zeta. cbn [fst snd]. unfold getCommentById. cbn [commentsHash].
  pose proof (assemble_hash e cs {| st_heap := h; st_hash := commentsHash this |}) as Hh.
  pose proof (assemble_fields e cs {| st_heap := h; st_hash := commentsHash this |}) as F.
  cbn [st_heap st_hash] in Hh, F. rewrite Hh. split.
  - intros k Hk. apply (sorted_ids e h cs k) in Hk.
    destruct (index_all_fetched _ _ (commentsHash this) k Hk) as (l & Hl & Hid & Hlk).
    exists l. split; [now apply sorted_fetched in Hl|]. split; [exact Hlk|].
    now rewrite (same_fields_id _ _ l F).
  - intros k Hk. apply index_all_other. now rewrite sorted_ids.
Qed.

Lemma getComments_index_merges_witness :
  getJsonData (serve_only "https://api.example.com/static/post.json" sample_thread)
    (comments_url sample_client "/Post/") = Resolved sample_thread /\
  let h' := fst (fst (getComments AtMostZero
              (serve_only "https://api.example.com/static/post.json" sample_thread)
              "/Post/" [] sample_client)) in
  let this' := snd (fst (getComments AtMostZero
              (serve_only "https://api.example.com/static/post.json" sample_thread)
              "/Post/" [] sample_client)) in
  (forall k, List.In k (List.map id sample_thread) ->
     exists l, List.In l (fetched [] sample_thread) /\
               getCommentById this' k = Some l /\ id_of h' l = k) /\
  (forall k, ~ List.In k (List.map id sample_thread) ->
     getCommentById this' k = getCommentById sample_client k).
Proof.
  split; [reflexivity|].
  apply (getComments_index_merges AtMostZero
           (serve_only "https://api.example.com/static/post.json" sample_thread)
           "/Post/" [] sample_client sample_thread).
  reflexivity.
Defined.

End TreeClaims.

(** ** Further properties of the text utilities *)

Section TextExtras.
Import JsString Regex Text TextSpec TextProps.
Local Open Scope string_scope.
Local Open Scope list_scope.

Lemma lit_append (a b : string) : lit (a ++ b)%string = lit a ++ lit b.
Proof.
  unfold lit. induction a as [|c a IH]; [reflexivity|].
  change (list_ascii_of_string (String c a ++ b)%string)
    with (c :: list_ascii_of_string (a ++ b)%string).
  change (list_ascii_of_string (String c a)) with (c :: list_ascii_of_string a).
  cbn [List.app]. f_equal. exact IH.
Qed.

Lemma string_of_list_app (a b : str) :
  string_of_list_ascii (a ++ b) = (string_of_list_ascii a ++ string_of_list_ascii b)%string.
Proof.
  induction a as [|c a IH]; [reflexivity|].
  change (string_of_list_ascii ((c :: a) ++ b)%list)
    with (String c (string_of_list_ascii (a ++ b)%list)).
  rewrite IH. reflexivity.
Qed.

Lemma lit_escapeHtml text : lit (escapeHtml text) = escape_each (lit text).
Proof. unfold escapeHtml. now rewrite lit_string_of_list, escapeHtml_str_spec. Qed.

Lemma lit_cleanSlug slug : lit (cleanSlug slug) = normalize_slug (lit slug).
Proof. unfold cleanSlug. now rewrite lit_string_of_list, cleanSlug_str_spec. Qed.

Lemma lit_inj (a b : string) : lit a = lit b -> a = b.
Proof.
  intros H. rewrite <- (string_of_list_ascii_of_string a),
    <- (string_of_list_ascii_of_string b). unfold lit in H. now rewrite H.
Qed.

Lemma escape_char_plain c : is_special c = false -> escape_char c = [c].
Proof. destruct c as [[] [] [] [] [] [] [] []]; intros H; try discriminate H; reflexivity. Qed.

Lemma escape_char_long c : is_special c = true -> 1 < List.length (escape_char c).
Proof.
  intros H. apply Nat.ltb_lt.
  destruct c as [[] [] [] [] [] [] [] []]; try discriminate H; reflexivity.
Qed.

Lemma escape_char_no_markup c :
  forallb (fun x => negb (is_markup x)) (escape_char c) = true.
Proof. destruct c as [[] [] [] [] [] [] [] []]; reflexivity. Qed.

Lemma unescape_escape_char c rest :
  unescape_from (escape_char c ++ rest) 0 = c :: unescape_from rest 0.
Proof. destruct c as [[] [] [] [] [] [] [] []]; reflexivity. Qed.

Lemma unescape_escape_each s : unescape (escape_each s) = s.
Proof.
  unfold unescape, escape_each. induction s as [|c s IH]; [reflexivity|].
  cbn [List.flat_map]. now rewrite unescape_escape_char, IH.
Qed.

(** X1. The text [escapeHtml] returns holds none of the characters
    less-than, greater-than, double quote and single quote, whatever the
    input. *)
Theorem escapeHtml_no_markup :
  forall (text : string) (c : ascii),
    List.In c (lit (escapeHtml text)) -> is_markup c = false.
Proof.
  intros text c. rewrite lit_escapeHtml. unfold escape_each.
  rewrite List.in_flat_map. intros (x & _ & Hc).
  pose proof (escape_char_no_markup x) as H.
  rewrite List.forallb_forall in H. specialize (H c Hc).
  now destruct (is_markup c).
Qed.

(** X2. [escapeHtml] loses nothing: reading the five entities back gives
    the input again, so two different texts never escape to the same
    text. *)
Theorem escapeHtml_injective :
  (forall text : string, unescape (lit (escapeHtml text)) = lit text) /\
  (forall a b : string, escapeHtml a = escapeHtml b -> a = b).
Proof.
  assert (R : forall text : string, unescape (lit (escapeHtml text)) = lit text).
  { intros text. now rewrite lit_escapeHtml, unescape_escape_each. }
  split; [exact R|].
  intros a b E. apply lit_inj. now rewrite <- (R a), <- (R b), E.
Qed.

Lemma escapeHtml_injective_witness :
  escapeHtml "a<b" = escapeHtml "a<b" /\ "a<b" = "a<b".
Proof.
  split; [reflexivity|].
  exact (proj2 escapeHtml_injective "a<b" "a<b" eq_refl).
Defined.

Lemma escape_each_plain s :
  List.forallb (fun c => negb (is_special c)) s = true -> escape_each s = s.
Proof.
  unfold escape_each. induction s as [|c s IH]; [reflexivity|].
  cbn [List.forallb List.flat_map]. intros H. apply andb_prop in H as [Hc Hs].
  rewrite escape_char_plain by now destruct (is_special c).
  cbn. now rewrite IH.
Qed.

Lemma escape_each_special_grows s :
  List.forallb (fun c => negb (is_special c)) s = false ->
  List.length s < List.length (escape_each s).
Proof.
  induction s as [|c s IH]; [discriminate|].
  cbn [List.forallb]. unfold escape_each in *. cbn [List.flat_map List.length].
  rewrite length_app. pose proof (escape_each_length s) as L. unfold escape_each in L.
  destruct (is_special c) eqn:E; cbn [negb andb].
  - intros _. pose proof (escape_char_long c E). lia.
  - intros H. specialize (IH H). rewrite (escape_char_plain c E). cbn. lia.
Qed.

(** X3. The texts [escapeHtml] leaves as they are, are exactly those that
    hold none of the five special characters. *)
Theorem escapeHtml_fixed_points :
  forall text : string,
    escapeHtml text = text <->
    List.forallb (fun c => negb (is_special c)) (lit text) = true.
Proof.
  intros text. split.
  - intros E. destruct (List.forallb _ (lit text)) eqn:F; [reflexivity|exfalso].
    apply escape_each_special_grows in F. rewrite <- lit_escapeHtml, E in F. lia.
  - intros F. apply lit_inj. rewrite lit_escapeHtml. now apply escape_each_plain.
Qed.

(** X4. Escaping a concatenation is concatenating the escaped parts. *)
Theorem escapeHtml_append :
  forall a b : string, escapeHtml (a ++ b)%string = (escapeHtml a ++ escapeHtml b)%string.
Proof.
  intros a b. apply lit_inj. rewrite lit_append, !lit_escapeHtml, lit_append.
  unfold escape_each. apply List.flat_map_app.
Qed.

(** *** The patterns of [parseMd] and of [cleanSlug] *)

Lemma matcher_star g a i s cs k :
  matcher (Star g a) i s cs k = star_loop g a k (S (List.length s)) i s cs.
Proof. reflexivity. Qed.

Lemma star_loop_unfold g a k n i s cs :
  star_loop g a k n i s cs =
  let iter :=
      match n with
      | O => None
      | S n' =>
          matcher a i s (clear (groups_of a) cs)
            (fun i' s' cs' => if Nat.eqb i' i then None else star_loop g a k n' i' s' cs')
      end in
    if g
    then match iter with Some res => Some res | None => k i s cs end
    else match k i s cs with Some res => Some res | None => iter end.
Proof. destruct n; reflexivity. Qed.

Lemma clear_nil cs : clear [] cs = cs.
Proof.
  unfold clear. induction cs as [|kv cs IH]; simpl; [reflexivity|]. f_equal. exact IH.
Qed.

Lemma star_loop_lazy_dot k n i s cs :
  List.length s < n -> star_loop false Dot k n i s cs = lazy_dots k i s cs.
Proof.
  revert n i. induction s as [|x s IH]; intros n i Hn.
  - rewrite star_loop_unfold. cbv zeta. cbn [lazy_dots].
    destruct (k i [] cs); [reflexivity|]. destruct n; reflexivity.
  - rewrite star_loop_unfold. cbv zeta. cbn [lazy_dots].
    destruct (k i (x :: s) cs); [reflexivity|].
    destruct n; [cbn in Hn; lia|].
    cbn [matcher groups_of]. rewrite clear_nil.
    destruct (is_line_terminator x); [reflexivity|].
    replace (Nat.eqb (S i) i) with false by (symmetry; apply Nat.eqb_neq; lia).
    apply IH. cbn in Hn. lia.
Qed.

Lemma lazy_dots_close b s1 i s cs :
  lazy_dots (fun i' s'' cs' =>
               match s'' with
               | x :: t =>
                   if Ascii.eqb x "*"
                   then Some (S i', t, (1, firstn (i' - b) s1) :: cs')
                   else None
               | [] => None
               end) i s cs =
  match close s with
  | Some j => Some (S (i + j), skipn (S j) s, (1, firstn (i + j - b) s1) :: cs)
  | None => None
  end.
Proof.
  revert i. induction s as [|x s IH]; intros i; [reflexivity|].
  cbn [lazy_dots close]. destruct (Ascii.eqb x "*") eqn:E.
  - cbn. now rewrite Nat.add_0_r.
  - rewrite IH. destruct (is_line_terminator x); [reflexivity|].
    destruct (close s) as [j|]; [|reflexivity]. cbn [option_map].
    now replace (S i + j) with (i + S j) by lia.
Qed.

Lemma matcher_cat a b i s cs k :
  matcher (Cat a b) i s cs k = matcher a i s cs (fun i' s' cs' => matcher b i' s' cs' k).
Proof. reflexivity. Qed.

Lemma matcher_chr c i x s cs k :
  matcher (Chr c) i (x :: s) cs k = if Ascii.eqb x c then k (S i) s cs else None.
Proof. reflexivity. Qed.

Lemma matcher_group n a i s cs k :
  matcher (Group n a) i s cs k =
  matcher a i s cs (fun i' s' cs' => k i' s' ((n, firstn (i' - i) s) :: cs')).
Proof. reflexivity. Qed.

Lemma exec_ital_star i s :
  exec ital i ("*"%char :: s) =
  match close s with
  | Some j => Some (S (S j), [(1, firstn j s)])
  | None => None
  end.
Proof.
  unfold exec, ital. rewrite matcher_cat, matcher_chr.
  change (Ascii.eqb "*" "*") with true. cbv iota beta.
  rewrite matcher_cat, matcher_group, matcher_star, star_loop_lazy_dot by lia.
  match goal with
  | |- context [lazy_dots ?k ?a ?b ?c] =>
      change (lazy_dots k a b c) with (lazy_dots (closing_star (S i) s) a b c)
  end.
  unfold closing_star. rewrite (lazy_dots_close (S i) s (S i) s []).
  destruct (close s) as [j|]; [|reflexivity].
  f_equal. f_equal; [lia|]. f_equal. f_equal. f_equal. lia.
Qed.

Lemma exec_ital_other i c s :
  Ascii.eqb c "*" = false -> exec ital i (c :: s) = None.
Proof. intros E. unfold exec, ital. cbn [matcher]. now rewrite E. Qed.

Lemma exec_ital_nil i : exec ital i [] = None.
Proof. reflexivity. Qed.

Lemma replace_from_skip r f k : forall i s,
  k <= List.length s ->
  replace_from r f i s k = replace_from r f (i + k) (skipn k s) 0.
Proof.
  induction k as [|k IH]; intros i s Hk.
  - now rewrite Nat.add_0_r.
  - destruct s as [|x s]; [cbn in Hk; lia|].
    cbn [replace_from skipn]. rewrite IH by (cbn in Hk; lia).
    now replace (S i + k) with (i + S k) by lia.
Qed.

Lemma close_some s j :
  close s = Some j -> forallb no_star (firstn j s) = true /\ S j <= List.length s.
Proof.
  revert j. induction s as [|x s IH]; intros j; [discriminate|].
  cbn [close]. destruct (Ascii.eqb x "*") eqn:E.
  - intros [= <-]. cbn. split; [reflexivity|lia].
  - destruct (is_line_terminator x); [discriminate|].
    destruct (close s) as [j'|]; [|discriminate]. intros [= <-].
    destruct (IH j' eq_refl) as [F L]. cbn [firstn forallb List.length].
    unfold no_star at 1. rewrite E, F. split; [reflexivity|lia].
Qed.

Lemma close_none_head x t : close (x :: t) = None -> Ascii.eqb x "*" = false.
Proof. cbn. now destruct (Ascii.eqb x "*"). Qed.

Lemma star_pair_cons_other c s : Ascii.eqb c "*" = false -> star_pair (c :: s) = star_pair s.
Proof. intros E. cbn. now rewrite E. Qed.

Lemma star_pair_prefix a b : forallb no_star a = true -> star_pair (a ++ b) = star_pair b.
Proof.
  induction a as [|c a IH]; [reflexivity|]. cbn [forallb]. intros H.
  apply andb_prop in H as [Hc Ha]. cbn [List.app].
  rewrite star_pair_cons_other; [now apply IH|].
  unfold no_star in Hc. now destruct (Ascii.eqb c "*").
Qed.

Lemma substitute_ital m cap :
  substitute 1 ital_tpl m [(1, cap)] = lit "<i>" ++ cap ++ lit "</i>".
Proof. reflexivity. Qed.

Lemma ital_pass_shape n : forall s i,
  List.length s <= n ->
  star_pair (replace_from ital (substitute 1 ital_tpl) i s 0) = false /\
  match s with
  | c :: _ =>
      Ascii.eqb c "*" = false ->
      exists o, replace_from ital (substitute 1 ital_tpl) i s 0 = c :: o
  | [] => replace_from ital (substitute 1 ital_tpl) i s 0 = []
  end.
Proof.
  induction n as [|n IH]; intros s i Hn.
  - destruct s; [|cbn in Hn; lia]. split; reflexivity.
  - destruct s as [|c s]; [split; reflexivity|].
    cbn in Hn. rewrite replace_from_cons.
    destruct (Ascii.eqb c "*") eqn:E.
    + apply Ascii.eqb_eq in E. subst c. rewrite exec_ital_star.
      split; [|discriminate].
      destruct (close s) as [j|] eqn:C.
      * destruct (close_some s j C) as [F L].
        rewrite substitute_ital, replace_from_skip by exact L.
        rewrite <- !List.app_assoc.
        rewrite (star_pair_prefix (lit "<i>")) by reflexivity.
        rewrite (star_pair_prefix _ _ F).
        rewrite (star_pair_prefix (lit "</i>")) by reflexivity.
        apply IH. rewrite length_skipn. lia.
      * destruct (IH s (S i) ltac:(lia)) as [P H].
        cbn [star_pair]. rewrite P, orb_false_r. cbn [Ascii.eqb Bool.eqb andb].
        destruct s as [|x t]; [now rewrite H|].
        destruct (H (close_none_head x t C)) as [o ->].
        apply (close_none_head x t C).
    + rewrite exec_ital_other by exact E.
      destruct (IH s (S i) ltac:(lia)) as [P _].
      split; [now rewrite star_pair_cons_other|]. intros _. eauto.
Qed.

Lemma exec_bold_none i s :
  match s with
  | c :: d :: _ => Ascii.eqb c "*" && Ascii.eqb d "*"
  | _ => false
  end = false ->
  exec bold i s = None.
Proof.
  intros H. unfold exec, bold.
  change (Lit (lit "**")) with (Cat (Chr "*") (Chr "*")).
  rewrite matcher_cat, matcher_cat.
  destruct s as [|c [|d s]]; [reflexivity| |].
  - rewrite matcher_chr. destruct (Ascii.eqb c "*"); reflexivity.
  - rewrite matcher_chr. destruct (Ascii.eqb c "*"); [|reflexivity].
    cbv beta. rewrite matcher_chr. cbn [andb] in H. now rewrite H.
Qed.

Lemma replace_bold_id f s : forall i,
  star_pair s = false -> replace_from bold f i s 0 = s.
Proof.
  induction s as [|c s IH]; intros i H.
  - rewrite replace_from_nil, exec_bold_none; reflexivity.
  - cbn [star_pair] in H. apply orb_false_elim in H as [H1 H2].
    rewrite replace_from_cons, exec_bold_none.
    + now rewrite IH.
    + destruct s; [reflexivity|exact H1].
Qed.

(** *** Patterns that begin with a literal, and the paragraph pattern *)

Lemma matcher_first_char r c :
  first_char r = Some c ->
  forall i s cs k,
    match s with x :: _ => Ascii.eqb x c = false | [] => True end ->
    matcher r i s cs k = None.
Proof.
  induction r; cbn [first_char]; try discriminate.
  - intros [= ->] i s cs k H. destruct s as [|x s]; [reflexivity|].
    rewrite matcher_chr. now rewrite H.
  - intros Hc i s cs k H. rewrite matcher_cat. now apply IHr1.
  - intros Hc i s cs k H. rewrite matcher_group. now apply IHr.
Qed.

Lemma replace_without_first_char r c tpl s :
  first_char r = Some c ->
  forallb (fun x => negb (Ascii.eqb x c)) s = true ->
  replace r tpl s = s.
Proof.
  intros Hc. unfold replace, replace_fn. generalize 0 at 1.
  induction s as [|x s IH]; intros i H.
  - rewrite replace_from_nil. unfold exec.
    now rewrite (matcher_first_char r c Hc).
  - cbn [forallb] in H. apply andb_prop in H as [Hx Hs].
    rewrite replace_from_cons. unfold exec at 1.
    rewrite (matcher_first_char r c Hc) by now destruct (Ascii.eqb x c).
    now rewrite IH.
Qed.

Lemma star_loop_greedy_dot k n i s cs :
  List.length s < n -> star_loop true Dot k n i s cs = greedy_dots k i s cs.
Proof.
  revert n i. induction s as [|x s IH]; intros n i Hn.
  - rewrite star_loop_unfold. cbv zeta. destruct n; reflexivity.
  - rewrite star_loop_unfold. cbv zeta.
    destruct n; [cbn in Hn; lia|].
    cbn [matcher groups_of greedy_dots]. rewrite clear_nil.
    destruct (is_line_terminator x); [reflexivity|].
    replace (Nat.eqb (S i) i) with false by (symmetry; apply Nat.eqb_neq; lia).
    rewrite IH by (cbn in Hn; lia). reflexivity.
Qed.

Lemma greedy_dots_line k i s cs r :
  forallb on_line s = true ->
  k (i + List.length s) [] cs = Some r ->
  greedy_dots k i s cs = Some r.
Proof.
  revert i. induction s as [|x s IH]; intros i H E.
  - cbn in *. now rewrite Nat.add_0_r in E.
  - cbn [forallb] in H. apply andb_prop in H as [Hx Hs].
    cbn [greedy_dots]. unfold on_line in Hx.
    destruct (is_line_terminator x); [discriminate|].
    rewrite (IH (S i) Hs); [reflexivity|].
    cbn [List.length] in E. now replace (S i + List.length s) with (i + S (List.length s)) by lia.
Qed.

Lemma matcher_dot i x s cs k :
  matcher Dot i (x :: s) cs k = if is_line_terminator x then None else k (S i) s cs.
Proof. reflexivity. Qed.

Lemma exec_paragraph_line i x s :
  forallb on_line (x :: s) = true ->
  exists cs, exec paragraph i (x :: s) = Some (S (List.length s), cs) /\
             capture 1 cs = x :: s.
Proof.
  intros H. cbn [forallb] in H. apply andb_prop in H as [Hx Hs].
  unfold exec, paragraph, Plus.
  rewrite matcher_group, matcher_cat, matcher_cat.
  rewrite matcher_dot. unfold on_line in Hx.
  destruct (is_line_terminator x); [discriminate|].
  rewrite matcher_star, star_loop_greedy_dot by lia.
  erewrite greedy_dots_line; [|exact Hs|reflexivity].
  eexists. split.
  - f_equal. f_equal. lia.
  - cbn [capture Nat.eqb].
    replace (S i + List.length s - i) with (S (List.length s)) by lia.
    cbn [firstn]. now rewrite firstn_all.
Qed.

Lemma substitute_paragraph m cs :
  substitute 3 (lit "<p>$1</p>") m cs = lit "<p>" ++ capture 1 cs ++ lit "</p>".
Proof. reflexivity. Qed.

Lemma replace_paragraph_line s :
  s <> [] -> forallb on_line s = true ->
  replace paragraph (lit "<p>$1</p>") s = lit "<p>" ++ s ++ lit "</p>".
Proof.
  intros Hne H. destruct s as [|x s]; [contradiction|].
  unfold replace, replace_fn. change (List.length (groups_of paragraph)) with 3.
  rewrite replace_from_cons.
  destruct (exec_paragraph_line 0 x s H) as (cs & E & C). rewrite E.
  rewrite substitute_paragraph, C, replace_from_skip by lia.
  rewrite skipn_all. rewrite replace_from_nil.
  change (exec paragraph (1 + List.length s) []) with (@None (nat * captures)).
  now rewrite List.app_nil_r.
Qed.

Lemma inline_free_split s :
  forallb inline_free s = true ->
  forallb (fun x => negb (Ascii.eqb x "`")) s = true /\
  forallb (fun x => negb (Ascii.eqb x "[")) s = true /\
  forallb (fun x => negb (Ascii.eqb x "*")) s = true.
Proof.
  induction s as [|c s IH]; [now repeat split|].
  cbn [forallb]. intros H. apply andb_prop in H as [Hc Hs].
  destruct (IH Hs) as (A & B & C). rewrite A, B, C.
  unfold inline_free in Hc.
  destruct (Ascii.eqb c "`"), (Ascii.eqb c "["), (Ascii.eqb c "*");
    try discriminate; now repeat split.
Qed.

Lemma parseMd_str_inline_free s :
  forallb inline_free s = true ->
  parseMd_str s = replace paragraph (lit "<p>$1</p>") s.
Proof.
  intros H. destruct (inline_free_split s H) as (A & B & C).
  unfold parseMd_str.
  rewrite (replace_without_first_char codeblock "`") by (reflexivity || exact A).
  rewrite (replace_without_first_char code_span "`") by (reflexivity || exact A).
  rewrite (replace_without_first_char link "[") by (reflexivity || exact B).
  rewrite (replace_without_first_char ital "*") by (reflexivity || exact C).
  rewrite (replace_without_first_char bold "*") by (reflexivity || exact C).
  reflexivity.
Qed.

Lemma lower_char_slash c : Ascii.eqb (lower_char c) "/" = Ascii.eqb c "/".
Proof. destruct c as [[] [] [] [] [] [] [] []]; reflexivity. Qed.

Lemma no_edge_slash_lower s : no_edge_slash (toLowerCase s) = no_edge_slash s.
Proof.
  unfold no_edge_slash, toLowerCase. rewrite <- List.map_rev. f_equal.
  - destruct s as [|c s]; [reflexivity|]. cbn. now rewrite lower_char_slash.
  - destruct (rev s) as [|c r]; [reflexivity|]. cbn. now rewrite lower_char_slash.
Qed.

Lemma strip_no_edge_slash s :
  no_edge_slash s = true -> strip_trailing_slash (strip_leading_slash s) = s.
Proof.
  unfold no_edge_slash. intros H. apply andb_prop in H as [H1 H2].
  assert (E : strip_leading_slash s = s).
  { destruct s as [|c s]; [reflexivity|]. cbn. now destruct (Ascii.eqb c "/"). }
  rewrite E. unfold strip_trailing_slash.
  destruct (rev s) as [|c r] eqn:R.
  - apply (f_equal (@rev _)) in R. now rewrite rev_involutive in R.
  - now destruct (Ascii.eqb c "/").
Qed.

Lemma strip_wrapped s :
  strip_trailing_slash (strip_leading_slash ("/"%char :: s ++ ["/"%char])) = s.
Proof.
  cbn [strip_leading_slash Ascii.eqb Bool.eqb]. unfold strip_trailing_slash.
  rewrite rev_app_distr. cbn. apply rev_involutive.
Qed.

Lemma normalize_slug_wrapped s :
  no_edge_slash s = true ->
  normalize_slug ("/"%char :: s ++ ["/"%char]) = normalize_slug s.
Proof.
  intros H. unfold normalize_slug.
  assert (L : toLowerCase ("/"%char :: s ++ ["/"%char]) =
              "/"%char :: toLowerCase s ++ ["/"%char]).
  { unfold toLowerCase. cbn [List.map]. now rewrite List.map_app. }
  rewrite L, strip_wrapped.
  now rewrite (strip_no_edge_slash (toLowerCase s)) by now rewrite no_edge_slash_lower.
Qed.


(** X5. The file name [cleanSlug] returns holds no slash and no upper-case
    letter and has no whitespace around it; the slugs it returns as they
    are, are exactly those of this shape. *)
Theorem cleanSlug_shape :
  (forall slug : string,
      List.Forall slug_char (lit (cleanSlug slug)) /\
      trim (lit (cleanSlug slug)) = lit (cleanSlug slug)) /\
  (forall slug : string,
      cleanSlug slug = slug <->
      List.Forall slug_char (lit slug) /\ trim (lit slug) = lit slug).
Proof.
  assert (S : forall slug : string,
             List.Forall slug_char (lit (cleanSlug slug)) /\
             trim (lit (cleanSlug slug)) = lit (cleanSlug slug)).
  { intros slug. rewrite lit_cleanSlug. split; [apply normalize_slug_chars|].
    unfold normalize_slug. apply trim_idem. }
  split; [exact S|]. intros slug. split.
  - intros E. specialize (S slug). now rewrite E in S.
  - intros [F T]. apply lit_inj. rewrite lit_cleanSlug. now apply slug_chars_fixed.
Qed.

(** X6. A slug that neither begins nor ends with a slash names the same
    file with a slash put before and after it. *)
Theorem cleanSlug_enclosing_slashes :
  forall slug : string,
    no_edge_slash (lit slug) = true ->
    cleanSlug ("/" ++ slug ++ "/")%string = cleanSlug slug.
Proof.
  intros slug H. apply lit_inj. rewrite !lit_cleanSlug, !lit_append.
  now apply normalize_slug_wrapped.
Qed.

Lemma cleanSlug_enclosing_slashes_witness :
  no_edge_slash (lit "Blog/My-Post") = true /\
  cleanSlug ("/" ++ "Blog/My-Post" ++ "/")%string = cleanSlug "Blog/My-Post".
Proof.
  split; [reflexivity|].
  apply (cleanSlug_enclosing_slashes "Blog/My-Post"). reflexivity.
Defined.

Lemma bold_after_ital (t : str) :
  replace bold (lit "<strong>$1</strong>") (replace ital (lit "<i>$1</i>") t)
  = replace ital (lit "<i>$1</i>") t.
Proof.
  unfold replace at 1, replace_fn. apply replace_bold_id.
  unfold replace, replace_fn.
  apply (ital_pass_shape (List.length t) t 0 (Nat.le_refl _)).
Qed.

(** X7. The bold substitution of [parseMd] never changes anything: the
    italic substitution that runs before it leaves no two asterisks side
    by side, so for every text the result is the one of the pipeline
    without the bold step. *)
Theorem parseMd_bold_never_applies :
  (forall t : str,
      replace bold (lit "<strong>$1</strong>") (replace ital (lit "<i>$1</i>") t)
      = replace ital (lit "<i>$1</i>") t) /\
  (forall text : string,
      parseMd text =
      string_of_list_ascii
        (replace paragraph (lit "<p>$1</p>")
          (replace ital (lit "<i>$1</i>")
            (replace link link_tpl
              (replace code_span (lit "<code>$1</code>")
                (replace codeblock codeblock_tpl (lit text))))))).
Proof.
  assert (D := bold_after_ital).
  split; [exact D|].
  intros text. unfold parseMd, parseMd_str. now rewrite D.
Qed.

(** X8. A text of one line that holds no backtick, no opening bracket and
    no asterisk comes out of [parseMd] as it is, inside one paragraph
    element. *)
Theorem parseMd_plain_line :
  forall text : string,
    text <> ""%string ->
    List.forallb (fun c => inline_free c && on_line c) (lit text) = true ->
    parseMd text = ("<p>" ++ text ++ "</p>")%string.
Proof.
  intros text Hne H.
  assert (HI : List.forallb inline_free (lit text) = true /\
               List.forallb on_line (lit text) = true).
  { clear Hne. induction (lit text) as [|c l IH]; [now split|].
    cbn [List.forallb] in *. apply andb_prop in H as [Hc Hl].
    apply andb_prop in Hc as [-> ->]. destruct (IH Hl) as [-> ->]. now split. }
  destruct HI as [HI HL]. apply lit_inj.
  unfold parseMd. rewrite lit_string_of_list, (parseMd_str_inline_free _ HI).
  rewrite !lit_append. apply replace_paragraph_line; [|exact HL].
  intros E. apply Hne. apply lit_inj. now rewrite E.
Qed.

Lemma parseMd_plain_line_witness :
  "Hello, world!" <> ""%string /\
  List.forallb (fun c => inline_free c && on_line c) (lit "Hello, world!") = true /\
  parseMd "Hello, world!" = ("<p>" ++ "Hello, world!" ++ "</p>")%string.
Proof.
  split; [discriminate|]. split; [reflexivity|].
  apply (parseMd_plain_line "Hello, world!"); [discriminate|reflexivity].
Defined.

(** *** Spans of [parseMd] *)

Lemma plain_split s :
  forallb plain s = true ->
  forallb inline_free s = true /\ forallb on_line s = true /\ forallb no_star s = true.
Proof.
  induction s as [|c s IH]; [now repeat split|].
  cbn [forallb]. intros H. apply andb_prop in H as [Hc Hs].
  destruct (IH Hs) as (-> & -> & ->). unfold plain in Hc.
  apply andb_prop in Hc as [Hi ->]. rewrite Hi.
  unfold inline_free in Hi. unfold no_star.
  destruct (Ascii.eqb c "*"); [now rewrite !andb_false_r in Hi|now repeat split].
Qed.

Lemma close_plain x rest :
  forallb plain x = true -> close (x ++ "*"%char :: rest) = Some (List.length x).
Proof.
  induction x as [|c x IH]; [reflexivity|].
  cbn [forallb]. intros H. apply andb_prop in H as [Hc Hx].
  cbn [List.app close List.length]. rewrite (IH Hx).
  unfold plain, inline_free, on_line in Hc.
  destruct (Ascii.eqb c "*"); [now rewrite !andb_false_r in Hc|].
  destruct (is_line_terminator c); [now rewrite !andb_false_r in Hc|reflexivity].
Qed.

Lemma ital_pass_plain_prefix x rest : forall i,
  forallb no_star x = true ->
  replace_from ital (substitute 1 ital_tpl) i (x ++ rest) 0 =
  x ++ replace_from ital (substitute 1 ital_tpl) (i + List.length x) rest 0.
Proof.
  induction x as [|c x IH]; intros i H.
  - cbn. now rewrite Nat.add_0_r.
  - cbn [forallb] in H. apply andb_prop in H as [Hc Hx].
    cbn [List.app]. rewrite replace_from_cons, exec_ital_other.
    + rewrite IH by exact Hx. cbn [List.length].
      now replace (S i + List.length x) with (i + S (List.length x)) by lia.
    + unfold no_star in Hc. now destruct (Ascii.eqb c "*").
Qed.

Lemma ital_pass_span x rest i :
  forallb plain x = true ->
  replace_from ital (substitute 1 ital_tpl) i ("*"%char :: x ++ "*"%char :: rest) 0 =
  lit "<i>" ++ x ++ lit "</i>" ++
  replace_from ital (substitute 1 ital_tpl) (i + S (S (List.length x))) rest 0.
Proof.
  intros H. rewrite replace_from_cons, exec_ital_star, (close_plain x rest H).
  rewrite substitute_ital, replace_from_skip by (rewrite length_app; cbn; lia).
  rewrite firstn_app, firstn_all, Nat.sub_diag. cbn [firstn].
  rewrite List.app_nil_r.
  replace (skipn (S (List.length x)) (x ++ "*"%char :: rest)) with rest.
  - replace (S i + S (List.length x)) with (i + S (S (List.length x))) by lia.
    now rewrite <- !List.app_assoc.
  - rewrite skipn_app, skipn_all2 by lia.
    replace (S (List.length x) - List.length x) with 1 by lia. reflexivity.
Qed.

Lemma ital_pass_empty_span rest i :
  replace_from ital (substitute 1 ital_tpl) i ("*"%char :: "*"%char :: rest) 0 =
  lit "<i>" ++ lit "</i>" ++
  replace_from ital (substitute 1 ital_tpl) (i + 2) rest 0.
Proof. exact (ital_pass_span [] rest i eq_refl). Qed.

Lemma forallb_app_true {A} (f : A -> bool) a b :
  forallb f a = true -> forallb f b = true -> forallb f (a ++ b) = true.
Proof. intros Ha Hb. rewrite List.forallb_app. now rewrite Ha, Hb. Qed.

Lemma inline_passes_without_marks s :
  forallb (fun x => negb (Ascii.eqb x "`")) s = true ->
  forallb (fun x => negb (Ascii.eqb x "[")) s = true ->
  parseMd_str s =
  replace paragraph (lit "<p>$1</p>") (replace ital (lit "<i>$1</i>") s).
Proof.
  intros A B. unfold parseMd_str.
  rewrite (replace_without_first_char codeblock "`") by (reflexivity || exact A).
  rewrite (replace_without_first_char code_span "`") by (reflexivity || exact A).
  rewrite (replace_without_first_char link "[") by (reflexivity || exact B).
  now rewrite bold_after_ital.
Qed.

Lemma plain_no_marks s :
  forallb plain s = true ->
  forallb (fun x => negb (Ascii.eqb x "`")) s = true /\
  forallb (fun x => negb (Ascii.eqb x "[")) s = true.
Proof.
  intros H. destruct (plain_split s H) as (I & _ & _).
  destruct (inline_free_split s I) as (A & B & _). now split.
Qed.

(** X18. An italic span around a one-line text that holds no backtick, no
    opening bracket and no asterisk comes out as that text inside an [i]
    element inside one paragraph. *)
Theorem parseMd_italic_span :
  forall text : string,
    forallb plain (lit text) = true ->
    parseMd ("*" ++ text ++ "*")%string = ("<p><i>" ++ text ++ "</i></p>")%string.
Proof.
  intros text H. destruct (plain_split _ H) as (I & L & N).
  destruct (plain_no_marks _ H) as (A & B).
  apply lit_inj. unfold parseMd. rewrite lit_string_of_list, !lit_append.
  change (lit "*") with ["*"%char]. cbn [List.app].
  rewrite inline_passes_without_marks.
  - unfold replace at 2, replace_fn. change (List.length (groups_of ital)) with 1.
    change (lit "<i>$1</i>") with ital_tpl.
    rewrite (ital_pass_span (lit text) [] 0 H). rewrite replace_from_nil, exec_ital_nil.
    rewrite List.app_nil_r.
    rewrite replace_paragraph_line.
    + change (lit "<p><i>") with (lit "<p>" ++ lit "<i>").
      change (lit "</i></p>") with (lit "</i>" ++ lit "</p>").
      now rewrite <- !List.app_assoc.
    + discriminate.
    + repeat apply forallb_app_true; try reflexivity. exact L.
  - cbn [forallb]. apply forallb_app_true; [exact A|reflexivity].
  - cbn [forallb]. apply forallb_app_true; [exact B|reflexivity].
Qed.

(** X19. A bold span around such a text never comes out bold: each pair of
    asterisks becomes an empty [i] element and the text stays bare
    between them. *)
Theorem parseMd_bold_span :
  forall text : string,
    forallb plain (lit text) = true ->
    parseMd ("**" ++ text ++ "**")%string
    = ("<p><i></i>" ++ text ++ "<i></i></p>")%string.
Proof.
  intros text H. destruct (plain_split _ H) as (I & L & N).
  destruct (plain_no_marks _ H) as (A & B).
  apply lit_inj. unfold parseMd. rewrite lit_string_of_list, !lit_append.
  change (lit "**") with ["*"%char; "*"%char]. cbn [List.app].
  rewrite inline_passes_without_marks.
  - unfold replace at 2, replace_fn. change (List.length (groups_of ital)) with 1.
    change (lit "<i>$1</i>") with ital_tpl.
    rewrite ital_pass_empty_span.
    rewrite ital_pass_plain_prefix by exact N.
    rewrite ital_pass_empty_span.
    rewrite replace_from_nil, exec_ital_nil.
    rewrite replace_paragraph_line.
    + change (lit "<p><i></i>") with (lit "<p>" ++ lit "<i>" ++ lit "</i>").
      change (lit "<i></i></p>") with (lit "<i>" ++ lit "</i>" ++ lit "</p>").
      rewrite <- !List.app_assoc. reflexivity.
    + discriminate.
    + repeat apply forallb_app_true; try reflexivity. exact L.
  - cbn [forallb]. apply forallb_app_true; [exact A|reflexivity].
  - cbn [forallb]. apply forallb_app_true; [exact B|reflexivity].
Qed.

Lemma parseMd_italic_span_witness :
  forallb plain (lit "very nice") = true /\
  parseMd ("*" ++ "very nice" ++ "*")%string = ("<p><i>" ++ "very nice" ++ "</i></p>")%string.
Proof.
  split; [reflexivity|]. apply (parseMd_italic_span "very nice"). reflexivity.
Defined.

Lemma parseMd_bold_span_witness :
  forallb plain (lit "very nice") = true /\
  parseMd ("**" ++ "very nice" ++ "**")%string
  = ("<p><i></i>" ++ "very nice" ++ "<i></i></p>")%string.
Proof.
  split; [reflexivity|]. apply (parseMd_bold_span "very nice"). reflexivity.
Defined.

Lemma escapeHtml_no_markup_witness :
  List.In "&"%char (lit (escapeHtml "<")) /\ is_markup "&" = false.
Proof.
  assert (H : List.In "&"%char (lit (escapeHtml "<"))) by (vm_compute; now left).
  split; [exact H|]. exact (escapeHtml_no_markup "<" "&"%char H).
Defined.

End TextExtras.

(** ** Further properties of the client and of the comment tree *)

Section TreeExtras.
Import Http Client JsArray Tree TreeProps Samples MoreSamples.
Local Open Scope list_scope.

Lemma move_children_error hash arr : forall h err,
  snd (move_children hash arr h) = Some err ->
  err = dangling /\
  exists l pid, List.In l arr /\ parent_of h l = Some pid /\ hash !! pid = None.
Proof.
  induction arr as [|l arr IH]; intros h err H; [discriminate|].
  cbn [move_children] in H. destruct (parent_of h l) as [pid|] eqn:E.
  - destruct (hash !! pid) as [p|] eqn:Ep.
    + destruct (IH _ _ H) as (-> & l' & pid' & Hl' & Hp & Hh).
      split; [reflexivity|]. exists l', pid'. split; [now right|]. split; [|exact Hh].
      now rewrite (same_fields_parent _ _ l' (push_child_fields p l h)) in Hp.
    + cbn in H. injection H as <-. split; [reflexivity|].
      exists l, pid. split; [now left|]. now split.
  - destruct (IH _ _ H) as (-> & l' & pid' & Hl' & Hp & Hh).
    split; [reflexivity|]. exists l', pid'. split; [now right|]. now split.
Qed.

Lemma children_push_grows p l h x :
  exists extra, children_of (push_child p l h) x = children_of h x ++ extra.
Proof.
  destruct (Nat.lt_ge_cases x (List.length h)) as [L|G].
  - rewrite children_push by exact L. destruct (decide (p = x)); eauto.
    exists []. now rewrite List.app_nil_r.
  - exists []. unfold children_of, push_child.
    rewrite !lookup_ge_None_2; [reflexivity|lia|rewrite length_alter; lia].
Qed.

Lemma move_children_grows hash arr : forall h x,
  exists extra, children_of (fst (move_children hash arr h)) x = children_of h x ++ extra.
Proof.
  induction arr as [|l arr IH]; intros h x.
  - exists []. cbn. now rewrite List.app_nil_r.
  - cbn [move_children]. destruct (parent_of h l) as [pid|]; [|apply IH].
    destruct (hash !! pid) as [p|].
    + destruct (IH (push_child p l h) x) as [e1 ->].
      destruct (children_push_grows p l h x) as [e2 ->].
      exists (e2 ++ e1). now rewrite List.app_assoc.
    + exists []. cbn. now rewrite List.app_nil_r.
Qed.

Lemma loaded_old h cs x : x < List.length h -> loaded h cs !! x = h !! x.
Proof. intros L. unfold loaded. now apply lookup_app_l. Qed.

Lemma fetched_not_old h cs x : x < List.length h -> ~ List.In x (fetched h cs).
Proof. intros L H. apply List.in_seq in H. lia. Qed.

Lemma move_children_resolved hash arr : forall h,
  snd (move_children hash arr h) = None ->
  forall l pid, List.In l arr -> parent_of h l = Some pid -> is_Some (hash !! pid).
Proof.
  induction arr as [|a arr IH]; intros h Hok l pid Hl Hp; [destruct Hl|].
  cbn [move_children] in Hok. destruct Hl as [->|Hl].
  - rewrite Hp in Hok. destruct (hash !! pid) as [p|]; [eauto|discriminate].
  - destruct (parent_of h a) as [q|]; [|now apply (IH h Hok l)].
    destruct (hash !! q) as [p|]; [|discriminate].
    apply (IH _ Hok l pid Hl).
    now rewrite (same_fields_parent _ _ l (push_child_fields p a h)).
Qed.

(** What a call that resolves has done, whatever the parent references. *)
Lemma assemble_resolved_shape e cs st st' forest :
  assemble e cs st = (st', Resolved forest) ->
  let h0 := loaded (st_heap st) cs in
  let arr := sorted e (st_heap st) cs in
  let hash' := indexed e (st_heap st) cs (st_hash st) in
  st_hash st' = hash' /\
  forest = List.filter (is_root h0) arr /\
  same_fields h0 (st_heap st') /\
  (forall l pid, List.In l arr -> parent_of h0 l = Some pid -> is_Some (hash' !! pid)) /\
  (forall x, List.In x arr ->
             children_of (st_heap st') x = List.filter (pushed_into h0 hash' x) arr) /\
  (forall x, x < List.length (st_heap st) ->
             children_of (st_heap st') x =
             children_of (st_heap st) x ++ List.filter (pushed_into h0 hash' x) arr).
Proof.
  intros H h0 arr hash'.
  pose proof (assemble_hash e cs st) as Hh.
  pose proof (assemble_fields e cs st) as F.
  rewrite H in Hh, F. cbn [fst] in Hh, F. fold h0 in F. fold hash' in Hh.
  rewrite assemble_unfold in H. cbv zeta in H. fold h0 arr in H.
  set (st0 := {| st_heap := h0; st_hash := st_hash st |}) in *.
  pose proof (create_hash_fields arr st0) as F1.
  pose proof (create_hash_hash arr st0) as Hh1. cbn [st_heap st_hash st0] in F1, Hh1.
  fold (index_all (id_of h0) arr (st_hash st)) in Hh1.
  change (index_all (id_of h0) arr (st_hash st)) with hash' in Hh1.
  rewrite Hh1 in H.
  pose proof (fun x => create_hash_children arr st0 x) as C1.
  pose proof (fun x => create_hash_children_other arr st0 x) as C2.
  set (h1 := st_heap (create_hash arr st0)) in *.
  pose proof (fun x => move_children_children hash' arr h1 x) as Hch.
  pose proof (move_children_resolved hash' arr h1) as Hres.
  destruct (move_children hash' arr h1) as [h2 [err|]]; [discriminate|].
  cbn [fst snd] in *. injection H as <- <-. cbn [st_heap] in *.
  assert (Hfilter : forall x, List.filter (pushed_into h1 hash' x) arr =
                              List.filter (pushed_into h0 hash' x) arr).
  { intros x. apply List.filter_ext. intros a. unfold pushed_into.
    now rewrite (target_same _ _ hash' a F1). }
  assert (Hlen : List.length h1 = List.length h0) by now apply same_fields_length.
  split; [exact Hh|]. split; [|split; [exact F|split; [|split]]].
  - rewrite roots_filter. apply List.filter_ext.
    intros a. unfold is_root. now rewrite (same_fields_parent _ _ a F).
  - intros l pid Hl Hp. apply (Hres eq_refl l pid Hl).
    now rewrite (same_fields_parent _ _ l F1).
  - intros x Hx.
    assert (L : x < List.length h1).
    { rewrite Hlen. apply fetched_valid. now apply sorted_fetched in Hx. }
    now rewrite (Hch x eq_refl L), (C1 x Hx), Hfilter.
  - intros x Hx.
    assert (L : x < List.length h1).
    { rewrite Hlen. unfold h0, loaded. rewrite length_app. lia. }
    assert (N : ~ List.In x arr).
    { intros Hin. apply sorted_fetched in Hin. now apply (fetched_not_old _ cs x Hx). }
    rewrite (Hch x eq_refl L), (C2 x N), Hfilter. cbn [st_heap st0].
    unfold children_of at 1, h0. now rewrite loaded_old.
Qed.

Lemma assemble_outcome e cs st :
  let h0 := loaded (st_heap st) cs in
  let arr := sorted e (st_heap st) cs in
  let hash' := indexed e (st_heap st) cs (st_hash st) in
  ((forall l pid, List.In l arr -> parent_of h0 l = Some pid -> is_Some (hash' !! pid)) ->
   exists forest, snd (assemble e cs st) = Resolved forest) /\
  (forall err, snd (assemble e cs st) = Rejected err -> err = dangling).
Proof.
  intros h0 arr hash'. rewrite assemble_unfold. cbv zeta. fold h0 arr.
  set (st0 := {| st_heap := h0; st_hash := st_hash st |}).
  pose proof (create_hash_fields arr st0) as F1.
  pose proof (create_hash_hash arr st0) as Hh1. cbn [st_heap st_hash st0] in F1, Hh1.
  fold (index_all (id_of h0) arr (st_hash st)) in Hh1.
  change (index_all (id_of h0) arr (st_hash st)) with hash' in Hh1.
  rewrite Hh1.
  set (h1 := st_heap (create_hash arr st0)) in *.
  pose proof (move_children_succeeds hash' arr h1) as Hok.
  pose proof (move_children_error hash' arr h1) as Herr.
  destruct (move_children hash' arr h1) as [h2 [err|]]; cbn [fst snd] in *.
  - split.
    + intros H. exfalso. enough (Some err = None) by discriminate.
      apply Hok. intros l pid Hl Hp. apply (H l pid Hl).
      now rewrite <- (same_fields_parent _ _ l F1).
    + intros err' [= <-]. now destruct (Herr err eq_refl).
  - split; [eauto|discriminate].
Qed.

Lemma fetched_parent h cs l c :
  loaded h cs !! l = Some (fresh c) -> parent_of (loaded h cs) l = truthy_parent c.
Proof. intros H. unfold parent_of. now rewrite H. Qed.

Lemma indexed_known e h cs hash pid :
  is_Some (indexed e h cs hash !! pid) <->
  List.In pid (List.map id cs) \/ is_Some (hash !! pid).
Proof.
  unfold indexed. destruct (in_dec Z.eq_dec pid (List.map id cs)) as [I|N].
  - split; [now left|]. intros _.
    destruct (index_all_fetched (id_of (loaded h cs)) (sorted e h cs) hash pid)
      as (l & _ & _ & ->); [now apply sorted_ids|eauto].
  - rewrite index_all_other by now rewrite sorted_ids. tauto.
Qed.

Lemma filter_none {A} (f : A -> bool) l :
  (forall a, List.In a l -> f a = false) -> List.filter f l = [].
Proof.
  induction l as [|a l IH]; intros H; [reflexivity|]. cbn.
  rewrite (H a) by now left. apply IH. intros b Hb. apply H. now right.
Qed.

Section FetchedArray.
Context (e : engine) (fetch : fetch_fn (list comment)) (slug : string)
        (h : list object) (this : Jamments) (cs : list comment).
Hypothesis Hfetch : getJsonData fetch (comments_url this slug) = Resolved cs.

(** X12. A call of [getComments] that got its array resolves exactly when
    every parent reference that is neither null nor zero names a comment
    of the array or an identifier the index already holds; it rejects
    with no other error than the TypeError of the failed lookup. *)
Theorem getComments_resolves_iff :
  ((exists forest, snd (getComments e fetch slug h this) = Resolved forest) <->
   (forall c p, List.In c cs -> truthy_parent c = Some p ->
                List.In p (List.map id cs) \/ is_Some (getCommentById this p))) /\
  (forall err, snd (getComments e fetch slug h this) = Rejected err -> err = dangling).
Proof.
  rewrite (getComments_resolved e fetch slug h this cs Hfetch). cbv zeta. cbn [snd].
  set (st := {| st_heap := h; st_hash := commentsHash this |}).
  destruct (assemble_outcome e cs st) as [Hok Herr]. cbn [st_heap st_hash st] in Hok.
  split; [|exact Herr]. unfold getCommentById. split.
  - intros [forest Hf] c p Hc Hp.
    destruct (assemble e cs st) as [st' res] eqn:E. cbn [snd] in Hf. subst res.
    destruct (assemble_resolved_shape e cs st st' forest E) as (_ & _ & _ & R & _).
    cbn [st_heap st_hash st] in R.
    destruct (fetched_of_comment h cs c Hc) as (l & Hl & Hlc).
    apply (indexed_known e h cs). apply (R l p); [now apply sorted_fetched|].
    now rewrite (fetched_parent h cs l c Hlc).
  - intros H. apply Hok. intros l pid Hl Hp. apply sorted_fetched in Hl.
    destruct (comment_of_fetched h cs l Hl) as (c & Hc & Hlc).
    rewrite (fetched_parent h cs l c Hlc) in Hp.
    apply indexed_known. now apply (H c pid).
Qed.

(** X13. A call of [getComments] that got its array adds one object per
    record to the store and leaves the objects that were there before at
    their place with their record; their [children] can only grow at the
    end, and stay as they are when the parent references resolve inside
    the array. *)
Theorem getComments_keeps_earlier_objects :
  let h' := fst (fst (getComments e fetch slug h this)) in
  List.length h' = List.length h + List.length cs /\
  forall x, x < List.length h ->
    fields <$> (h' !! x) = fields <$> (h !! x) /\
    (exists extra, children_of h' x = children_of h x ++ extra) /\
    (parents_resolve cs -> children_of h' x = children_of h x).
Proof.
  rewrite (getComments_resolved e fetch slug h this cs Hfetch). cbv zeta. cbn [fst].
  set (st := {| st_heap := h; st_hash := commentsHash this |}).
  pose proof (assemble_fields e cs st) as F. cbn [st_heap st] in F.
  split.
  { rewrite (same_fields_length _ _ F). unfold loaded.
    now rewrite length_app, length_map. }
  intros x Hx. split; [|split].
  - rewrite F. now rewrite loaded_old.
  - rewrite assemble_unfold. cbv zeta. cbn [st_heap st_hash st].
    set (arr := sorted e h cs).
    set (st0 := {| st_heap := loaded h cs; st_hash := commentsHash this |}).
    pose proof (move_children_grows (st_hash (create_hash arr st0)) arr
                  (st_heap (create_hash arr st0)) x) as [extra G].
    assert (C : children_of (st_heap (create_hash arr st0)) x = children_of h x).
    { rewrite create_hash_children_other.
      - cbn [st_heap st0]. unfold children_of. now rewrite loaded_old.
      - intros Hin. apply sorted_fetched in Hin. now apply (fetched_not_old _ cs x Hx). }
    exists extra. rewrite <- C, <- G.
    now destruct (move_children _ _ _) as [h2 [err|]].
  - intros Hres. destruct (assemble_resolves e cs st Hres) as (h2 & Heq & _ & _).
    destruct (assemble_resolved_shape e cs st _ _ Heq) as (_ & _ & _ & _ & _ & Hold).
    rewrite Heq. cbn [fst st_heap st_hash st] in *. rewrite (Hold x Hx).
    rewrite filter_none; [apply List.app_nil_r|].
    intros l Hl. unfold pushed_into. apply bool_decide_eq_false_2. intros T.
    unfold target in T. destruct (parent_of (loaded h cs) l) as [pid|] eqn:P; [|discriminate].
    destruct (parents_indexed e h cs (commentsHash this) l pid Hres Hl P)
      as (p & Hp & _ & Hlk).
    rewrite Hlk in T. injection T as ->. apply sorted_fetched in Hp.
    now apply (fetched_not_old _ cs x Hx).
Qed.

(** X14. When the identifiers of the fetched array are pairwise different,
    [getCommentById] answers, for the identifier of each record, with the
    object built from that record. *)
Theorem getCommentById_roundtrip :
  List.NoDup (List.map id cs) ->
  let h' := fst (fst (getComments e fetch slug h this)) in
  let this' := snd (fst (getComments e fetch slug h this)) in
  forall i c, cs !! i = Some c ->
    getCommentById this' (id c) = Some (List.length h + i) /\
    fields <$> (h' !! (List.length h + i)) = Some c.
Proof.
  intros Hnd. rewrite (getComments_resolved e fetch slug h this cs Hfetch).
  cbv zeta. cbn [fst snd]. unfold getCommentById. cbn [commentsHash].
  set (st := {| st_heap := h; st_hash := commentsHash this |}).
  pose proof (assemble_hash e cs st) as Hh.
  pose proof (assemble_fields e cs st) as F. cbn [st_heap st_hash st] in Hh, F.
  intros i c Hi. split.
  - rewrite Hh.
    destruct (index_all_fetched (id_of (loaded h cs)) (sorted e h cs)
                (commentsHash this) (id c)) as (l & Hl & Hid & Hlk).
    { apply sorted_ids. apply List.in_map. apply list_elem_of_In, list_elem_of_lookup. eauto. }
    unfold indexed. rewrite Hlk. f_equal.
    apply sorted_fetched in Hl. apply List.in_seq in Hl.
    destruct (lookup_lt_is_Some_2 cs (l - List.length h)) as [c' Hc']; [lia|].
    pose proof (loaded_lookup h cs _ _ Hc') as L.
    replace (List.length h + (l - List.length h)) with l in L by lia.
    unfold id_of in Hid. rewrite L in Hid. cbn in Hid.
    assert (E : l - List.length h = i).
    { apply (NoDup_lookup (List.map id cs) _ _ (id c)).
      - now apply NoDup_ListNoDup.
      - change (List.map id cs) with (id <$> cs). rewrite list_lookup_fmap, Hc'.
        cbn [fmap option_fmap option_map]. congruence.
      - change (List.map id cs) with (id <$> cs). now rewrite list_lookup_fmap, Hi. }
    lia.
  - rewrite F. now rewrite (loaded_lookup h cs i c Hi).
Qed.

(** X15. A fetched comment whose parent is not in the array but is known to
    the index from before is pushed into the [children] of that earlier
    object and is absent from the roots that the call returns. *)
Theorem getComments_reply_to_earlier_fetch :
  forall i c p x,
    cs !! i = Some c ->
    truthy_parent c = Some p ->
    ~ List.In p (List.map id cs) ->
    getCommentById this p = Some x ->
    x < List.length h ->
    forall h' this' forest,
      getComments e fetch slug h this = (h', this', Resolved forest) ->
      List.In (List.length h + i) (children_of h' x) /\
      ~ List.In (List.length h + i) forest.
Proof.
  intros i c p x Hi Hp Hn Hx Hlt h' this' forest.
  rewrite (getComments_resolved e fetch slug h this cs Hfetch). cbv zeta.
  set (st := {| st_heap := h; st_hash := commentsHash this |}).
  destruct (assemble e cs st) as [st' res] eqn:E. cbn [fst snd].
  intros [= <- <- ->].
  destruct (assemble_resolved_shape e cs st st' forest E)
    as (_ & -> & _ & _ & _ & Hold). cbn [st_heap st_hash st] in *.
  pose proof (loaded_lookup h cs i c Hi) as L.
  assert (Hl : List.In (List.length h + i) (sorted e h cs)).
  { apply sorted_fetched, List.in_seq. apply lookup_lt_Some in Hi. lia. }
  assert (P : parent_of (loaded h cs) (List.length h + i) = Some p).
  { now rewrite (fetched_parent h cs _ c L). }
  split.
  - rewrite (Hold x Hlt). apply List.in_or_app. right.
    apply List.filter_In. split; [exact Hl|].
    unfold pushed_into, target. rewrite P. apply bool_decide_eq_true_2.
    unfold indexed. rewrite index_all_other by now rewrite sorted_ids. exact Hx.
  - intros Hin. apply List.filter_In in Hin as [_ R].
    unfold is_root in R. now rewrite P in R.
Qed.

End FetchedArray.

Lemma StronglySorted_weaken_in {A} (R R' : A -> A -> Prop) l :
  (forall a b, List.In a l -> List.In b l -> a <> b -> R a b -> R' a b) ->
  List.NoDup l -> StronglySorted R l -> StronglySorted R' l.
Proof.
  intros HR Hnd Hs. induction Hs as [|x l Hs IH Hx]; [constructor|].
  inversion Hnd as [|? ? Hnx Hnd']; subst.
  constructor.
  - apply IH; [|exact Hnd']. intros a b Ha Hb. apply HR; now right.
  - rewrite List.Forall_forall in Hx |- *. intros y Hy.
    apply HR; [now left|now right| |now apply Hx].
    intros ->. contradiction.
Qed.

Lemma fetched_dates_distinct h cs l1 l2 :
  List.NoDup (List.map submitted_at cs) ->
  List.In l1 (fetched h cs) -> List.In l2 (fetched h cs) ->
  submitted_at_of (loaded h cs) l1 = submitted_at_of (loaded h cs) l2 -> l1 = l2.
Proof.
  intros Hnd H1 H2 E. apply List.in_seq in H1, H2.
  destruct (lookup_lt_is_Some_2 cs (l1 - List.length h)) as [c1 Hc1]; [lia|].
  destruct (lookup_lt_is_Some_2 cs (l2 - List.length h)) as [c2 Hc2]; [lia|].
  pose proof (loaded_lookup h cs _ _ Hc1) as L1.
  pose proof (loaded_lookup h cs _ _ Hc2) as L2.
  replace (List.length h + (l1 - List.length h)) with l1 in L1 by lia.
  replace (List.length h + (l2 - List.length h)) with l2 in L2 by lia.
  unfold submitted_at_of in E. rewrite L1, L2 in E. cbn in E.
  assert (l1 - List.length h = l2 - List.length h); [|lia].
  apply (NoDup_lookup (List.map submitted_at cs) _ _ (submitted_at c1)).
  - now apply NoDup_ListNoDup.
  - change (List.map submitted_at cs) with (submitted_at <$> cs).
    now rewrite list_lookup_fmap, Hc1.
  - change (List.map submitted_at cs) with (submitted_at <$> cs).
    rewrite list_lookup_fmap, Hc2. cbn [fmap option_fmap option_map]. congruence.
Qed.

Lemma sorted_by_strict_date e h cs :
  List.NoDup (List.map submitted_at cs) ->
  StronglySorted
    (fun a b => (submitted_at_of (loaded h cs) a < submitted_at_of (loaded h cs) b)%Z)
    (sorted e h cs).
Proof.
  intros Hnd.
  apply (StronglySorted_weaken_in (before e (submitted_at_of (loaded h cs)))).
  - intros a b Ha Hb Hne [L|[E _]]; [exact L|]. exfalso. apply Hne.
    apply sorted_fetched in Ha, Hb.
    exact (fetched_dates_distinct h cs a b Hnd Ha Hb E).
  - apply (Permutation_NoDup (Permutation_sym (sort_perm _ _ _))), List.seq_NoDup.
  - apply sort_sorted, seq_sorted.
Qed.

Lemma sorted_engine_free h cs :
  List.NoDup (List.map submitted_at cs) ->
  sorted LessThanZero h cs = sorted AtMostZero h cs.
Proof.
  intros Hnd.
  apply (StronglySorted_unique_strong
           (fun a b => (submitted_at_of (loaded h cs) a < submitted_at_of (loaded h cs) b)%Z)).
  - intros x1 x2 _ _ H1 H2. lia.
  - now apply sorted_by_strict_date.
  - now apply sorted_by_strict_date.
  - unfold sorted. rewrite !sort_perm. reflexivity.
Qed.

(** X16. When the timestamps of the fetched array are pairwise different,
    the result of [getComments], store and index included, is the same
    for both sorting engines. *)
Theorem getComments_engine_free (fetch : fetch_fn (list comment)) slug h this cs :
  getJsonData fetch (comments_url this slug) = Resolved cs ->
  List.NoDup (List.map submitted_at cs) ->
  getComments LessThanZero fetch slug h this = getComments AtMostZero fetch slug h this.
Proof.
  intros Hfetch Hnd.
  rewrite !(getComments_resolved _ fetch slug h this cs Hfetch).
  rewrite !assemble_unfold. cbv zeta. cbn [st_heap st_hash].
  now rewrite (sorted_engine_free h cs Hnd).
Qed.

(** X9. The constructor succeeds exactly on a configuration that has both
    fields as non-empty strings; the client it returns holds these two
    strings and an empty index, and any other configuration is refused
    with the one TypeError. *)
Theorem constructor_outcome (cfg : option config) :
  (forall this,
      constructor cfg = inr this <->
      cfg = Some {| cfg_endpoint := Some (endpoint this);
                    cfg_cachedFilesURI := Some (cachedFilesURI this) |} /\
      endpoint this <> ""%string /\ cachedFilesURI this <> ""%string /\
      commentsHash this = ∅) /\
  (forall err,
      constructor cfg = inl err ->
      err = TypeError "Both endpoint and cachedFilesURI must be defined").
Proof.
  split.
  - intros this. unfold constructor. split.
    + destruct cfg as [[[e|] [u|]]|]; try discriminate.
      cbn [cfg_endpoint cfg_cachedFilesURI truthy].
      destruct (String.eqb_spec e ""), (String.eqb_spec u "");
        cbn [negb andb]; try discriminate.
      intros [= <-]. cbn. repeat split; assumption.
    + intros (-> & He & Hu & Hh). cbn [cfg_endpoint cfg_cachedFilesURI truthy].
      destruct (String.eqb_spec (endpoint this) ""); [contradiction|].
      destruct (String.eqb_spec (cachedFilesURI this) ""); [contradiction|].
      cbn. destruct this. cbn in Hh. now subst.
  - intros err. unfold constructor.
    destruct cfg as [[[e|] [u|]]|]; try (intros [= <-]; reflexivity).
    cbn [cfg_endpoint cfg_cachedFilesURI].
    destruct (truthy (Some e) && truthy (Some u)); intros H;
      [discriminate H|now injection H as <-].
Qed.

(** X10. When the transport fails, the status is outside 200-299 or the
    body is not JSON, [getComments] rejects with the transport's reason,
    an error made of the status, or the parse failure, and leaves the
    store and the client as they were. *)
Theorem getComments_failed_fetch e (fetch : fetch_fn (list comment)) slug h this :
  match fetch (get_request (comments_url this slug)) with
  | Failed err => getComments e fetch slug h this = (h, this, Rejected err)
  | Responded res =>
      if ok res
      then forall err, json res = Rejected err ->
                       getComments e fetch slug h this = (h, this, Rejected err)
      else getComments e fetch slug h this
           = (h, this, Rejected (StatusError (status res)))
  end.
Proof.
  unfold getComments, getJsonData.
  destruct (fetch _) as [res|err]; [|reflexivity].
  destruct (ok res); cbn [negb]; [|reflexivity].
  intros err ->. reflexivity.
Qed.

(** X11. A mutating operation resolves only when the transport answered its
    request with a status in 200-299; a transport failure, and a failure
    to read the body of an error response, reject with that failure. *)
Theorem mutations_resolve_only_on_success {J : Type} (fetch : fetch_fn J)
    (this : Jamments) (op : mutation) :
  (perform fetch this op = Resolved tt <->
   exists res, fetch (request_of this op) = Responded res /\ ok res = true) /\
  (forall err, fetch (request_of this op) = Failed err ->
               perform fetch this op = Rejected err) /\
  (forall res err, fetch (request_of this op) = Responded res ->
                   ok res = false -> text res = Rejected err ->
                   perform fetch this op = Rejected err).
Proof.
  assert (E : perform fetch this op =
              match fetch (request_of this op) with
              | Responded res =>
                  if negb (ok res)
                  then match text res with
                       | Resolved msg => Rejected (Message msg)
                       | Rejected err => Rejected err
                       end
                  else Resolved tt
              | Failed err => Rejected err
              end).
  { destruct op; reflexivity. }
  rewrite E. split; [|split].
  - split.
    + destruct (fetch _) as [res|err]; [|discriminate].
      destruct (ok res) eqn:O; [eauto|]. cbn. now destruct (text res).
    + intros (res & -> & ->). reflexivity.
  - intros err ->. reflexivity.
  - intros res err -> -> ->. reflexivity.
Qed.

(** X17. On an empty array [getComments] resolves with no root and leaves
    the store and the client as they were. *)
Theorem getComments_empty_array e (fetch : fetch_fn (list comment)) slug h this :
  getJsonData fetch (comments_url this slug) = Resolved [] ->
  getComments e fetch slug h this = (h, this, Resolved []).
Proof.
  intros Hfetch. rewrite (getComments_resolved e fetch slug h this [] Hfetch).
  rewrite assemble_unfold. cbv zeta. cbn. unfold loaded. cbn.
  rewrite List.app_nil_r. now destruct this.
Qed.

Lemma index_all_last idf arr : forall m k l,
  List.In k (List.map idf arr) ->
  index_all idf arr m !! k = Some l ->
  exists a b, arr = a ++ l :: b /\ idf l = k /\
              forall l', List.In l' b -> idf l' <> k.
Proof.
  induction arr as [|x arr IH]; intros m k l Hk Hl; [destruct Hk|].
  unfold index_all in Hl. cbn [fold_left] in Hl.
  fold (index_all idf arr (<[idf x:=x]> m)) in Hl.
  destruct (in_dec Z.eq_dec k (List.map idf arr)) as [I|I].
  - destruct (IH _ k l I Hl) as (a & b & -> & Hid & Hb).
    exists (x :: a), b. now repeat split.
  - destruct Hk as [E|Hk]; [|contradiction].
    rewrite index_all_other in Hl by exact I. subst k.
    rewrite lookup_insert_eq in Hl. injection Hl as <-.
    exists [], arr. repeat split. intros l' Hl' E. apply I.
    apply List.in_map_iff. eauto.
Qed.

(** X20. When several fetched comments share an identifier, the index holds
    the one the sort places last among them. *)
Theorem getCommentById_last_wins e (fetch : fetch_fn (list comment))
    slug h this cs :
  getJsonData fetch (comments_url this slug) = Resolved cs ->
  let h' := fst (fst (getComments e fetch slug h this)) in
  let this' := snd (fst (getComments e fetch slug h this)) in
  forall k l,
    List.In k (List.map id cs) ->
    getCommentById this' k = Some l ->
    exists a b, sorted e h cs = a ++ l :: b /\ id_of h' l = k /\
                forall l', List.In l' b -> id_of h' l' <> k.
Proof.
  intros Hfetch. rewrite (getComments_resolved e fetch slug h this cs Hfetch).
  cbv zeta. cbn [fst snd]. unfold getCommentById. cbn [commentsHash].
  set (st := {| st_heap := h; st_hash := commentsHash this |}).
  pose proof (assemble_hash e cs st) as Hh.
  pose proof (assemble_fields e cs st) as F. cbn [st_heap st_hash st] in Hh, F.
  intros k l Hk Hl. rewrite Hh in Hl. apply (sorted_ids e h cs k) in Hk.
  destruct (index_all_last _ _ _ k l Hk Hl) as (a & b & E & Hid & Hb).
  exists a, b. split; [exact E|]. split.
  - now rewrite (same_fields_id _ _ l F).
  - intros l' Hl'. rewrite (same_fields_id _ _ l' F). now apply Hb.
Qed.

Lemma getCommentById_last_wins_witness :
  getJsonData (serve_only post_url twice_one)
    (comments_url sample_client "/Post/") = Resolved twice_one /\
  let h' := fst (fst (getComments AtMostZero (serve_only post_url twice_one)
                        "/Post/" [] sample_client)) in
  let this' := snd (fst (getComments AtMostZero (serve_only post_url twice_one)
                           "/Post/" [] sample_client)) in
  forall k l,
    List.In k (List.map id twice_one) ->
    getCommentById this' k = Some l ->
    exists a b, sorted AtMostZero [] twice_one = a ++ l :: b /\ id_of h' l = k /\
                forall l', List.In l' b -> id_of h' l' <> k.
Proof.
  split; [reflexivity|].
  apply (getCommentById_last_wins AtMostZero (serve_only post_url twice_one)
           "/Post/" [] sample_client twice_one).
  reflexivity.
Defined.

(** *** The further properties at sample data *)

Lemma dated_thread_ids : List.NoDup (List.map id dated_thread).
Proof. repeat constructor; cbn; intuition discriminate. Qed.

Lemma dated_thread_dates : List.NoDup (List.map submitted_at dated_thread).
Proof. repeat constructor; cbn; intuition discriminate. Qed.

Lemma getComments_resolves_iff_witness :
  getJsonData (serve_only post_url reply_page)
    (comments_url returning_client "/Post/") = Resolved reply_page /\
  ((exists forest,
       snd (getComments LessThanZero (serve_only post_url reply_page) "/Post/"
              earlier_heap returning_client) = Resolved forest) <->
   (forall c p, List.In c reply_page -> truthy_parent c = Some p ->
                List.In p (List.map id reply_page) \/
                is_Some (getCommentById returning_client p))) /\
  (forall err,
      snd (getComments LessThanZero (serve_only post_url reply_page) "/Post/"
             earlier_heap returning_client) = Rejected err -> err = dangling).
Proof.
  split; [reflexivity|].
  apply (getComments_resolves_iff LessThanZero (serve_only post_url reply_page)
           "/Post/" earlier_heap returning_client reply_page).
  reflexivity.
Defined.

Lemma getComments_keeps_earlier_objects_witness :
  getJsonData (serve_only post_url dated_thread)
    (comments_url returning_client "/Post/") = Resolved dated_thread /\
  let h' := fst (fst (getComments AtMostZero (serve_only post_url dated_thread)
                        "/Post/" earlier_heap returning_client)) in
  List.length h' = List.length earlier_heap + List.length dated_thread /\
  forall x, x < List.length earlier_heap ->
    fields <$> (h' !! x) = fields <$> (earlier_heap !! x) /\
    (exists extra, children_of h' x = children_of earlier_heap x ++ extra) /\
    (parents_resolve dated_thread -> children_of h' x = children_of earlier_heap x).
Proof.
  split; [reflexivity|].
  apply (getComments_keeps_earlier_objects AtMostZero (serve_only post_url dated_thread)
           "/Post/" earlier_heap returning_client dated_thread).
  reflexivity.
Defined.

Lemma getCommentById_roundtrip_witness :
  getJsonData (serve_only post_url dated_thread)
    (comments_url sample_client "/Post/") = Resolved dated_thread /\
  List.NoDup (List.map id dated_thread) /\
  let h' := fst (fst (getComments AtMostZero (serve_only post_url dated_thread)
                        "/Post/" [] sample_client)) in
  let this' := snd (fst (getComments AtMostZero (serve_only post_url dated_thread)
                           "/Post/" [] sample_client)) in
  forall i c, dated_thread !! i = Some c ->
    getCommentById this' (id c) = Some (List.length (@nil object) + i) /\
    fields <$> (h' !! (List.length (@nil object) + i)) = Some c.
Proof.
  split; [reflexivity|]. split; [exact dated_thread_ids|].
  apply (getCommentById_roundtrip AtMostZero (serve_only post_url dated_thread)
           "/Post/" [] sample_client dated_thread);
    [reflexivity|exact dated_thread_ids].
Defined.

Lemma getComments_reply_to_earlier_fetch_witness :
  getJsonData (serve_only post_url reply_page)
    (comments_url returning_client "/Post/") = Resolved reply_page /\
  reply_page !! 0 = Some (record 2 (Some 1%Z) 20) /\
  truthy_parent (record 2 (Some 1%Z) 20) = Some 1%Z /\
  ~ List.In 1%Z (List.map id reply_page) /\
  getCommentById returning_client 1%Z = Some 0 /\
  0 < List.length earlier_heap /\
  getComments LessThanZero (serve_only post_url reply_page) "/Post/"
    earlier_heap returning_client
  = (fst (fst (getComments LessThanZero (serve_only post_url reply_page) "/Post/"
                 earlier_heap returning_client)),
     snd (fst (getComments LessThanZero (serve_only post_url reply_page) "/Post/"
                 earlier_heap returning_client)),
     Resolved []) /\
  List.In (List.length earlier_heap + 0)
    (children_of
       (fst (fst (getComments LessThanZero (serve_only post_url reply_page) "/Post/"
                    earlier_heap returning_client))) 0) /\
  ~ List.In (List.length earlier_heap + 0) [].
Proof.
  assert (N : ~ List.In 1%Z (List.map id reply_page)).
  { cbn. intuition discriminate. }
  assert (E : getComments LessThanZero (serve_only post_url reply_page) "/Post/"
                earlier_heap returning_client
              = (fst (fst (getComments LessThanZero (serve_only post_url reply_page)
                             "/Post/" earlier_heap returning_client)),
                 snd (fst (getComments LessThanZero (serve_only post_url reply_page)
                             "/Post/" earlier_heap returning_client)),
                 Resolved [])) by reflexivity.
  split; [reflexivity|]. split; [reflexivity|]. split; [reflexivity|].
  split; [exact N|]. split; [reflexivity|]. split; [cbn; lia|]. split; [exact E|].
  apply (getComments_reply_to_earlier_fetch LessThanZero
           (serve_only post_url reply_page) "/Post/" earlier_heap returning_client
           reply_page eq_refl 0 (record 2 (Some 1%Z) 20) 1%Z 0
           eq_refl eq_refl N eq_refl ltac:(cbn; lia) _ _ [] E).
Defined.

Lemma getComments_engine_free_witness :
  getJsonData (serve_only post_url dated_thread)
    (comments_url sample_client "/Post/") = Resolved dated_thread /\
  List.NoDup (List.map submitted_at dated_thread) /\
  getComments LessThanZero (serve_only post_url dated_thread) "/Post/" [] sample_client
  = getComments AtMostZero (serve_only post_url dated_thread) "/Post/" [] sample_client.
Proof.
  split; [reflexivity|]. split; [exact dated_thread_dates|].
  apply (getComments_engine_free (serve_only post_url dated_thread) "/Post/" []
           sample_client dated_thread); [reflexivity|exact dated_thread_dates].
Defined.

Lemma getComments_empty_array_witness :
  getJsonData (serve_only post_url []) (comments_url returning_client "/Post/")
    = Resolved [] /\
  getComments AtMostZero (serve_only post_url []) "/Post/" earlier_heap returning_client
  = (earlier_heap, returning_client, Resolved []).
Proof.
  split; [reflexivity|].
  apply (getComments_empty_array AtMostZero (serve_only post_url []) "/Post/"
           earlier_heap returning_client).
  reflexivity.
Defined.

End TreeExtras.
